(** * gatekeeper: the rule pipeline of [trust]

    A shallow embedding of the two versions of [gatekeeper] found in the
    repository, [src/lib/index.ts] (module [Lib]) and [src/unnamed/part_000]
    (module [Part000]), and the properties of [trust] proved about them.

    Modelling conventions.
    - JavaScript values are the inductive type [Value]; two values are the
      same object when they are equal.  The universe holds what the
      pipeline itself can tell apart: [undefined], values that are
      [instanceof Error], and values that are not.  No value of the
      universe is callable.  [String(v)] returns a string or throws a
      [TypeError]: it throws for a plain object with an own property
      [toString], which hides the method of [Object.prototype].
    - The object [returnOfRuleSet] is a record of its own properties, a
      finite map [gmap string Value], and of its prototype.  A property
      assigned [undefined] is a property of the object: it is bound, to
      [VUndefined].  An assignment [returnOfRuleSet[tag] = v] creates or
      updates an own property, except that ['__proto__'] is the accessor
      of [Object.prototype]: while that accessor is reached, the
      assignment sets the prototype or does nothing.  The order of the
      properties is not modelled.
    - [capture], [context] and the rule evaluators are opaque callables
      supplied by the user.  They act on an abstract [World] (whatever
      state they can read and write) and every call made by [trust] is
      recorded, with what it produced, in a trace of [Event]s.  A call
      of an evaluator together with the [await] of what it returns is
      one step: it gives a [Completion] and the world in which the loop
      goes on.
      Values are immutable: what an evaluator changes, in an object
      it was given or elsewhere, is part of the world.
    - [trust] is an [async] function: running it yields a [Promise]
      outcome, the final world and the trace of calls it made. *)

From stdpp Require Import gmap strings list fin_maps.

Set Default Proof Using "Type".

(** ** Values *)

#[warnings="-register-all"]
Inductive Value : Type :=
| VUndefined
| VNull
| VBoolean (b : bool)
| VString (s : string)
| VObject (props : list (string * Value))
| VError (name message : string)
| VGatekeeperUnauthorizedError (message : string) (reason : Value) (rule : string).

(** [new Error(message)] *)
Definition Error_new (message : string) : Value := VError "Error" message.

(** [class GatekeeperUnauthorizedError extends Error]: the constructor
    [(message, public reason, public rule = 'failcheck')].  A default
    parameter value is used exactly when the argument is [undefined];
    [currentRule] has type [string | undefined], hence [option string]. *)
Definition GatekeeperUnauthorizedError_new
    (message : string) (reason : Value) (rule : option string) : Value :=
  VGatekeeperUnauthorizedError message reason (default "failcheck" rule).

(** [v instanceof Error] *)
Definition instanceof_Error (v : Value) : bool :=
  match v with
  | VError _ _ | VGatekeeperUnauthorizedError _ _ _ => true
  | _ => false
  end.

(** [v instanceof GatekeeperUnauthorizedError] *)
Definition instanceof_GatekeeperUnauthorizedError (v : Value) : bool :=
  match v with
  | VGatekeeperUnauthorizedError _ _ _ => true
  | _ => false
  end.

(** [Error.prototype.toString] *)
Definition Error_toString (name message : string) : string :=
  if decide (message = "") then name
  else if decide (name = "") then message
  else name +:+ ": " +:+ message.

(** Whether [v] is a plain object with an own property [name].  It is
    asked for [toString] and for [__proto__], which no [Error] of the
    universe has of its own. *)
Definition plain_own (name : string) (v : Value) : bool :=
  match v with
  | VObject props => bool_decide (name ∈ props.*1)
  | _ => false
  end.

(** [String(v)]: the string, or [None] when the conversion throws a
    [TypeError].  For an object the conversion calls its [toString],
    then its [valueOf].  A plain object inherits both from
    [Object.prototype] and gives ["[object Object]"]; an own property
    [toString] hides the inherited method and is not callable, and
    [valueOf], own or inherited, gives no primitive value: the
    conversion throws. *)
Definition String_ (v : Value) : option string :=
  match v with
  | VUndefined => Some "undefined"
  | VNull => Some "null"
  | VBoolean true => Some "true"
  | VBoolean false => Some "false"
  | VString s => Some s
  | VObject _ => if plain_own "toString" v then None else Some "[object Object]"
  | VError name message => Some (Error_toString name message)
  | VGatekeeperUnauthorizedError message _ _ => Some (Error_toString "Error" message)
  end.

(** The [TypeError] of a conversion that throws.  Its message is the
    engine's; no statement depends on it. *)
Definition TypeError_new (message : string) : Value := VError "TypeError" message.

Definition no_primitive_value : Value :=
  TypeError_new "Cannot convert object to primitive value".

(** [v instanceof TypeError] *)
Definition instanceof_TypeError (v : Value) : bool :=
  match v with
  | VError "TypeError" _ => true
  | _ => false
  end.

(** [v !== undefined] *)
Definition is_defined (v : Value) : bool :=
  match v with VUndefined => false | _ => true end.

(** The fields of an error, as the tests read them. *)
Definition message_of (v : Value) : option string :=
  match v with
  | VError _ m | VGatekeeperUnauthorizedError m _ _ => Some m
  | _ => None
  end.

Definition reason_of (v : Value) : option Value :=
  match v with VGatekeeperUnauthorizedError _ r _ => Some r | _ => None end.

Definition rule_of (v : Value) : option string :=
  match v with VGatekeeperUnauthorizedError _ _ r => Some r | _ => None end.

(** ** Calls to user code *)

(** What a synchronous call ([capture], [context]) does. *)
Inductive Sync : Type :=
| Returned (v : Value)
| Threw (e : Value).

(** What calling a rule evaluator and awaiting the result does: the
    evaluator returns a plain value or throws, or it returns a promise
    that is fulfilled, is rejected, or never settles. *)
Inductive Completion : Type :=
| Returns (v : Value)
| Throws (e : Value)
| Resolves (v : Value)
| Rejects (e : Value)
| NeverSettles.

(** The calls [trust] makes, in the order it makes them.  [CallRule k]
    is the call of the evaluator at position [k] of the rule array. *)
Inductive Event : Type :=
| CallContext (raw : Value) (r : Sync)
| CallCapture (raw : Value) (r : Sync)
| CallRule (k : nat) (tag : string) (parameters context : Value) (c : Completion).

(** The outcome of the promise returned by an [async] function. *)
Inductive Promise (A : Type) : Type :=
| Fulfilled (a : A)
| Rejected (e : Value)
| Pending.
Arguments Fulfilled {A} a.
Arguments Rejected {A} e.
Arguments Pending {A}.

(** ** The result object *)

(** The prototype of an object: [Object.prototype], as for [{}];
    [null]; or an object of the universe. *)
Inductive Prototype : Type :=
| Object_prototype
| Null_prototype
| Prototype_of (v : Value).

(** An object: its own properties and its prototype. *)
Record Rules : Type := mkRules {
  own : gmap string Value;
  prototype : Prototype
}.

(** A plain object with the own properties [m]; [{}] is [plain ∅]. *)
Definition plain (m : gmap string Value) : Rules := mkRules m Object_prototype.

(** Whether an assignment to ['__proto__'] on [o] reaches the setter of
    [Object.prototype]: [o] has no own property of that name, and no
    object on its prototype chain has a data property of that name
    before [Object.prototype] is reached.  (An object of the universe
    has [Object.prototype] on its chain, behind [Error.prototype] for
    an error.) *)
Definition setter_on_chain (pr : Prototype) : bool :=
  match pr with
  | Object_prototype => true
  | Null_prototype => false
  | Prototype_of v => negb (plain_own "__proto__" v)
  end.

Definition reaches_proto_setter (o : Rules) : bool :=
  match own o !! "__proto__" with
  | Some _ => false
  | None => setter_on_chain (prototype o)
  end.

(** [o[tag] = v].  Every property that an object of the universe or
    its chain holds is a writable data property, but for the accessor
    [__proto__] of [Object.prototype]; so the assignment creates or
    updates the own property [tag], unless [tag] is ['__proto__'] and
    the setter is reached: the setter makes an object or [null] the
    prototype of [o] and does nothing with any other value. *)
Definition assign (tag : string) (v : Value) (o : Rules) : Rules :=
  if bool_decide (tag = "__proto__") && reaches_proto_setter o then
    match v with
    | VNull => mkRules (own o) Null_prototype
    | VObject _ | VError _ _ | VGatekeeperUnauthorizedError _ _ _ =>
        mkRules (own o) (Prototype_of v)
    | _ => o
    end
  else mkRules (<[tag := v]> (own o)) (prototype o).

(** ** Execution monad: state, exceptions, divergence *)

Inductive Outcome (A : Type) : Type :=
| Normal (a : A)
| Abrupt (e : Value)
| Diverges.
Arguments Normal {A} a.
Arguments Abrupt {A} e.
Arguments Diverges {A}.

Section Exec.
Context {World : Type}.

(** [currentRule] is the local variable of [trust] that the loop
    assigns and the [catch] block reads. *)
Record State : Type := mkState {
  world : World;
  trace : list Event;
  currentRule : option string
}.

Definition Exec (A : Type) : Type := State → Outcome A * State.

Definition ret {A} (a : A) : Exec A := λ st, (Normal a, st).

Definition bind {A B} (m : Exec A) (f : A → Exec B) : Exec B :=
  λ st,
    match m st with
    | (Normal a, st') => f a st'
    | (Abrupt e, st') => (Abrupt e, st')
    | (Diverges, st') => (Diverges, st')
    end.

Definition throw {A} (e : Value) : Exec A := λ st, (Abrupt e, st).

(** [try { body } catch (error) { handler }] *)
Definition try_catch {A} (body : Exec A) (handler : Value → Exec A) : Exec A :=
  λ st,
    match body st with
    | (Abrupt e, st') => handler e st'
    | r => r
    end.

Definition set_currentRule (t : option string) : Exec unit :=
  λ st, (Normal tt, mkState (world st) (trace st) t).

Definition get_currentRule : Exec (option string) :=
  λ st, (Normal (currentRule st), st).

(** [String(v)], which returns the string or throws. *)
Definition String_call (v : Value) : Exec string :=
  match String_ v with
  | Some s => ret s
  | None => throw no_primitive_value
  end.

(** A synchronous call of user code, recorded by [ev]. *)
Definition call (ev : Value → Sync → Event)
    (f : Value → World → Sync * World) (x : Value) : Exec Value :=
  λ st,
    let '(r, w) := f x (world st) in
    let st' := mkState w (trace st ++ [ev x r]) (currentRule st) in
    match r with
    | Returned v => (Normal v, st')
    | Threw e => (Abrupt e, st')
    end.

(** [await rule(parameters, context)] for the rule at position [k]. *)
Definition await_rule (k : nat) (tag : string)
    (rule : Value → Value → World → Completion * World)
    (parameters context : Value) : Exec Value :=
  λ st,
    let '(c, w) := rule parameters context (world st) in
    let st' := mkState w (trace st ++ [CallRule k tag parameters context c])
                       (currentRule st) in
    match c with
    | Returns v | Resolves v => (Normal v, st')
    | Throws e | Rejects e => (Abrupt e, st')
    | NeverSettles => (Diverges, st')
    end.

(** What an invocation of an [async] function amounts to: how the
    promise it returns ends, the world it leaves, the calls it made. *)
Record Run (A : Type) : Type := mkRun {
  result : Promise A;
  after : World;
  calls : list Event
}.
Arguments mkRun {A} _ _ _.
Arguments result {A} _.
Arguments after {A} _.
Arguments calls {A} _.

(** Running the body of an [async] function from a world: a value
    returned fulfils the promise, an exception that leaves the body
    rejects it. *)
Definition async_from {A} (body : Exec A) (st : State) : Run A :=
  match body st with
  | (Normal a, st') => mkRun (Fulfilled a) (world st') (trace st')
  | (Abrupt e, st') => mkRun (Rejected e) (world st') (trace st')
  | (Diverges, st') => mkRun Pending (world st') (trace st')
  end.

Definition async {A} (body : Exec A) (w : World) : Run A :=
  async_from body (mkState w [] None).

(** ** The configuration *)

(** [type Rule = [Tag, (parameters, context) => RuleReturn]] *)
Definition Evaluator : Type := Value → Value → World → Completion * World.
Definition Rule : Type := string * Evaluator.

(** [type GatekeeperOptions = { capture, context?, rules }] *)
Record GatekeeperOptions : Type := mkOptions {
  capture : Value → World → Sync * World;
  context : option (Value → World → Sync * World);
  rules : list Rule
}.

(** An optional argument that the caller leaves out is [undefined]. *)
Definition optional (x : option Value) : Value := default VUndefined x.

(** The object [{ rules, trust }] that [gatekeeper] returns. *)
Record Instance : Type := mkInstance {
  instance_rules : list Rule;
  instance_trust : Value → option Value → World → Run Rules
}.

End Exec.

Arguments State World : clear implicits.
Arguments Exec World A : clear implicits.
Arguments Rule World : clear implicits.
Arguments Evaluator World : clear implicits.
Arguments GatekeeperOptions World : clear implicits.
Arguments Run World A : clear implicits.
Arguments mkRun {World A} _ _ _.
Arguments result {World A} _.
Arguments after {World A} _.
Arguments calls {World A} _.
Arguments mkState {World} _ _ _.
Arguments mkOptions {World} _ _ _.
Arguments Instance World : clear implicits.
Arguments mkInstance {World} _ _.

Declare Scope exec_scope.
Delimit Scope exec_scope with exec.
Notation "x <- m ;; k" := (bind m (λ x, k))
  (at level 100, m at next level, right associativity) : exec_scope.
Notation "m ;; k" := (bind m (λ _, k))
  (at level 100, right associativity) : exec_scope.
Open Scope exec_scope.

(** ** [src/lib/index.ts] *)
Module Lib.
Section Gatekeeper.
Context {World : Type}.

(** [for (const [tag, rule] of options.rules) { ... }], with [k] the
    position the array iterator has reached. *)
Fixpoint for_of (k : nat) (rules : list (Rule World)) (parameters context : Value)
    (returnOfRuleSet : Rules) : Exec World Rules :=
  match rules with
  | [] => ret returnOfRuleSet
  | (tag, rule) :: rest =>
      set_currentRule (Some tag) ;;
      v <- await_rule k tag rule parameters context ;;
      for_of (S k) rest parameters context (assign tag v returnOfRuleSet)
  end.

(** The body of [trust: async (parameters, context?) => { ... }].  The
    two parameters are assigned to: [parameters0] and [context0] are the
    arguments, [parameters] and [context1] the values after
    [context = options.context ? options.context(context) : undefined]
    and [parameters = options.capture(parameters)]. *)
Definition trust_body (options : GatekeeperOptions World)
    (parameters0 : Value) (context0 : option Value) : Exec World Rules :=
  set_currentRule None ;;
  context1 <- match options.(context) with
              | Some f => call CallContext f (optional context0)
              | None => ret VUndefined
              end ;;
  parameters <- call CallCapture options.(capture) parameters0 ;;
  try_catch
    (for_of 0 options.(rules) parameters context1 (plain ∅))
    (λ error,
      if instanceof_Error error then
        currentRule <- get_currentRule ;;
        throw (GatekeeperUnauthorizedError_new "UNAUTHORIZED" error currentRule)
      else
        message <- String_call error ;;
        currentRule <- get_currentRule ;;
        throw (GatekeeperUnauthorizedError_new "UNAUTHORIZED"
                 (Error_new message) currentRule)).

Definition trust (options : GatekeeperOptions World)
    (parameters0 : Value) (context0 : option Value) (w : World)
    : Run World Rules :=
  async (trust_body options parameters0 context0) w.

(** [return { rules: options.rules, trust: async ... }] *)
Definition gatekeeper (options : GatekeeperOptions World) : Instance World :=
  mkInstance options.(rules) (trust options).

End Gatekeeper.
End Lib.

(** ** [src/unnamed/part_000] *)
Module Part000.
Section Gatekeeper.
Context {World : Type}.

(** [customRule(tag, ruleFn)] returns [[tag, ruleFn]]. *)
Definition customRule (tag : string) (ruleFn : Evaluator World) : Rule World :=
  (tag, ruleFn).

(** [for (const [tag, rule] of options.rules) { ... }], with [k] the
    position the array iterator has reached. *)
Fixpoint for_of (k : nat) (rules : list (Rule World))
    (parameters validatedContext : Value)
    (returnOfRuleSet : Rules) : Exec World Rules :=
  match rules with
  | [] => ret returnOfRuleSet
  | (tag, rule) :: rest =>
      set_currentRule (Some tag) ;;
      result <- await_rule k tag rule parameters validatedContext ;;
      for_of (S k) rest parameters validatedContext
        (if is_defined result then assign tag result returnOfRuleSet
         else returnOfRuleSet)
  end.

(** The body of [trust: async (input, context?) => { ... }]; [context0]
    is the argument [context].  The [catch] block is
    [if (error instanceof Error) { throw ... } throw ...]. *)
Definition trust_body (options : GatekeeperOptions World)
    (input : Value) (context0 : option Value) : Exec World Rules :=
  set_currentRule None ;;
  validatedContext <- match options.(context) with
                      | Some f => call CallContext f (optional context0)
                      | None => ret VUndefined
                      end ;;
  parameters <- call CallCapture options.(capture) input ;;
  try_catch
    (for_of 0 options.(rules) parameters validatedContext (plain ∅))
    (λ error,
      (if instanceof_Error error then
         currentRule <- get_currentRule ;;
         throw (GatekeeperUnauthorizedError_new "UNAUTHORIZED" error currentRule)
       else ret tt) ;;
      message <- String_call error ;;
      currentRule <- get_currentRule ;;
      throw (GatekeeperUnauthorizedError_new "UNAUTHORIZED"
               (Error_new message) currentRule)).

Definition trust (options : GatekeeperOptions World)
    (input : Value) (context0 : option Value) (w : World)
    : Run World Rules :=
  async (trust_body options input context0) w.

(** [return { rules: options.rules, trust: async ... }] *)
Definition gatekeeper (options : GatekeeperOptions World) : Instance World :=
  mkInstance options.(rules) (trust options).

End Gatekeeper.
End Part000.

(** ** Vocabulary of the statements *)

(** The value an awaited call produced, if it produced one. *)
Definition fulfils_with (c : Completion) : option Value :=
  match c with
  | Returns v | Resolves v => Some v
  | _ => None
  end.

(** The error an awaited call raised, thrown or through a rejected
    promise, if it raised one. *)
Definition fails_with (c : Completion) : option Value :=
  match c with
  | Throws e | Rejects e => Some e
  | _ => None
  end.

(** The two versions of the source. *)
Inductive Source : Type := lib_index | part_000.

Definition trust_of {World : Type} (src : Source)
    : GatekeeperOptions World → Value → option Value → World → Run World Rules :=
  match src with
  | lib_index => Lib.trust
  | part_000 => Part000.trust
  end.

Definition for_of_of {World : Type} (src : Source)
    : nat → list (Rule World) → Value → Value → Rules → Exec World Rules :=
  match src with
  | lib_index => Lib.for_of
  | part_000 => Part000.for_of
  end.

(** What one iteration does to [returnOfRuleSet] in each version. *)
Definition store (src : Source) (m : Rules) (entry : string * Value) : Rules :=
  match src with
  | lib_index => assign entry.1 entry.2 m
  | part_000 => if is_defined entry.2 then assign entry.1 entry.2 m else m
  end.

(** How a pass over the rules ends. *)
Inductive Ending : Type :=
| Completed
| Failed (tag : string) (e : Value)
| Hung.

(** The rule calls of a trace, as position and completion, and the
    calls of the context function. *)
Definition rule_call (ev : Event) : option (nat * Completion) :=
  match ev with
  | CallRule k _ _ _ c => Some (k, c)
  | _ => None
  end.

Definition rule_calls (tr : list Event) : list (nat * Completion) :=
  omap rule_call tr.

Definition context_call (ev : Event) : option (Value * Sync) :=
  match ev with
  | CallContext raw r => Some (raw, r)
  | _ => None
  end.

Definition context_calls (tr : list Event) : list (Value * Sync) :=
  omap context_call tr.

Definition capture_call (ev : Event) : option (Value * Sync) :=
  match ev with
  | CallCapture raw r => Some (raw, r)
  | _ => None
  end.

Definition capture_calls (tr : list Event) : list (Value * Sync) :=
  omap capture_call tr.

(** No call of [capture] or of the context function threw. *)
Definition normalised (tr : list Event) : Prop :=
  ∀ raw e, (CallCapture raw (Threw e) ∉ tr) ∧ (CallContext raw (Threw e) ∉ tr).

(** The same, as a test on the trace. *)
Definition threw (ev : Event) : bool :=
  match ev with
  | CallCapture _ (Threw _) | CallContext _ (Threw _) => true
  | _ => false
  end.

(** A call that is not the call of an evaluator, or one that produced
    a value other than [undefined]. *)
Definition produced_value (ev : Event) : bool :=
  match ev with
  | CallRule _ _ _ _ c =>
      match fulfils_with c with
      | Some v => is_defined v
      | None => false
      end
  | _ => true
  end.

(** Some rule evaluator was called: the invocation reached the loop. *)
Definition rule_called (tr : list Event) : Prop :=
  ∃ k tag p c compl, CallRule k tag p c compl ∈ tr.

(** What the [catch] block throws for a value [e] caught while
    [currentRule] was [rule]. *)
Definition translation (e : Value) (rule : option string) : Value :=
  if instanceof_Error e then
    GatekeeperUnauthorizedError_new "UNAUTHORIZED" e rule
  else
    match String_ e with
    | Some s => GatekeeperUnauthorizedError_new "UNAUTHORIZED" (Error_new s) rule
    | None => no_primitive_value
    end.

Section Runs.
Context {World : Type}.

(** A pass of the loop over [rules] from position [k] and world [w]:
    the calls made, the values obtained, how the pass ends and the
    world it leaves. *)
Inductive rule_run (p c : Value)
  : nat → list (Rule World) → World → list Event → list (string * Value)
    → Ending → World → Prop :=
| run_nil k w :
    rule_run p c k [] w [] [] Completed w
| run_value k tag rule rest w compl w1 v evs vs fin w2 :
    rule p c w = (compl, w1) →
    fulfils_with compl = Some v →
    rule_run p c (S k) rest w1 evs vs fin w2 →
    rule_run p c k ((tag, rule) :: rest) w
      (CallRule k tag p c compl :: evs) ((tag, v) :: vs) fin w2
| run_error k tag rule rest w compl w1 e :
    rule p c w = (compl, w1) →
    fails_with compl = Some e →
    rule_run p c k ((tag, rule) :: rest) w
      [CallRule k tag p c compl] [] (Failed tag e) w1
| run_hung k tag rule rest w w1 :
    rule p c w = (NeverSettles, w1) →
    rule_run p c k ((tag, rule) :: rest) w
      [CallRule k tag p c NeverSettles] [] Hung w1.

(** The context phase of [trust]: the call made, if any, what it gave
    and the world it leaves. *)
Inductive context_phase (options : GatekeeperOptions World) (raw : Value) (w : World)
  : list Event → Sync → World → Prop :=
| context_absent :
    context options = None →
    context_phase options raw w [] (Returned VUndefined) w
| context_called f r w1 :
    context options = Some f →
    f raw w = (r, w1) →
    context_phase options raw w [CallContext raw r] r w1.

Definition loop_outcome (src : Source) (acc : Rules)
    (vs : list (string * Value)) (fin : Ending) : Outcome Rules :=
  match fin with
  | Completed => Normal (foldl (store src) acc vs)
  | Failed _ e => Abrupt e
  | Hung => Diverges
  end.

Definition trust_result (src : Source)
    (vs : list (string * Value)) (fin : Ending) : Promise Rules :=
  match fin with
  | Completed => Fulfilled (foldl (store src) (plain ∅) vs)
  | Failed tag e => Rejected (translation e (Some tag))
  | Hung => Pending
  end.

(** The [catch] block of [src/lib/index.ts]. *)
Definition Lib_catch (error : Value) : Exec World Rules :=
  if instanceof_Error error then
    bind get_currentRule (λ currentRule,
      throw (GatekeeperUnauthorizedError_new "UNAUTHORIZED" error currentRule))
  else
    bind (String_call error) (λ message,
      bind get_currentRule (λ currentRule,
        throw (GatekeeperUnauthorizedError_new "UNAUTHORIZED"
                 (Error_new message) currentRule))).

(** The [catch] block of [src/unnamed/part_000]. *)
Definition Part000_catch (error : Value) : Exec World Rules :=
  bind (if instanceof_Error error then
          bind get_currentRule (λ currentRule,
            throw (GatekeeperUnauthorizedError_new "UNAUTHORIZED" error currentRule))
        else ret tt) (λ _,
    bind (String_call error) (λ message,
      bind get_currentRule (λ currentRule,
        throw (GatekeeperUnauthorizedError_new "UNAUTHORIZED"
                 (Error_new message) currentRule)))).

(** What [trust] does once the context is known, in either version:
    it calls [capture], then runs the loop inside [try]. *)
Definition after_context (src : Source) (options : GatekeeperOptions World)
    (input c : Value) : Exec World Rules :=
  bind (call CallCapture (capture options) input) (λ p,
    try_catch (for_of_of src 0 (rules options) p c (plain ∅)) (λ error,
      bind get_currentRule (λ currentRule,
        throw (translation error currentRule)))).

End Runs.

(** ** The configurations of the tests and of the examples

    The world is a log that every evaluator extends with the name of
    its rule when it is called: the side-effecting probe. *)

(** [v?.name]: the property [name] of a plain object, [undefined] when
    there is none. *)
Definition prop (name : string) (v : Value) : Value :=
  match v with
  | VObject props =>
      match find (λ kv, bool_decide (kv.1 = name)) props with
      | Some kv => kv.2
      | None => VUndefined
      end
  | _ => VUndefined
  end.

(** [v === 's'] *)
Definition is_string (s : string) (v : Value) : bool :=
  match v with
  | VString s' => bool_decide (s' = s)
  | _ => false
  end.

(** [if (v)] *)
Definition truthy (v : Value) : bool :=
  match v with
  | VUndefined | VNull | VBoolean false | VString "" => false
  | _ => true
  end.

(** An evaluator that records its call and completes as [body] says. *)
Definition logged (name : string) (body : Value → Value → Completion)
    : Evaluator (list string) :=
  λ parameters context log, (body parameters context, log ++ [name]).

Definition probe (name : string) (c : Completion) : Evaluator (list string) :=
  logged name (λ _ _, c).

(** [(x) => x as T] *)
Definition cast : Value → list string → Sync * list string :=
  λ x log, (Returned x, log).

(** [(x) => { throw e }] *)
Definition refuse (e : Value) : Value → list string → Sync * list string :=
  λ _ log, (Threw e, log).

(** [{ userId: id }] *)
Definition user (id : string) : Value := VObject [("userId", VString id)].

(** Test 'should pass all rules and return expected results'. *)
Definition pass_all_rules : GatekeeperOptions (list string) :=
  mkOptions cast None
    [ Part000.customRule "checkUserId"
        (logged "checkUserId" (λ params _,
           Returns (VBoolean (is_string "admin" (prop "userId" params)))));
      Part000.customRule "getRole"
        (logged "getRole" (λ params _,
           Returns (VString (if is_string "admin" (prop "userId" params)
                             then "admin" else "user")))) ].

(** Test 'should fail on first failing rule'. *)
Definition first_rule_fails : GatekeeperOptions (list string) :=
  mkOptions cast None
    [ Part000.customRule "checkUserId"
        (logged "checkUserId" (λ params _,
           if is_string "admin" (prop "userId" params)
           then Returns (VBoolean true)
           else Throws (Error_new "Not admin")));
      Part000.customRule "neverReached"
        (logged "neverReached" (λ _ _,
           Returns (VString "This should not be reached")));
      Part000.customRule "_"
        (logged "_" (λ params _, Returns (VObject [("params", params)]))) ].

(** Test 'should handle async rules'. *)
Definition async_rule : GatekeeperOptions (list string) :=
  mkOptions cast None
    [ Part000.customRule "asyncCheck"
        (logged "asyncCheck" (λ params _,
           Resolves (VBoolean (is_string "admin" (prop "userId" params))))) ].

(** Test 'should use context if provided'. *)
Definition context_aware : GatekeeperOptions (list string) :=
  mkOptions cast (Some cast)
    [ Part000.customRule "contextAwareCheck"
        (logged "contextAwareCheck" (λ params context,
           if truthy (prop "isSpecialMode" context)
           then Returns (VString "special")
           else Returns (VString (if is_string "admin" (prop "userId" params)
                                  then "admin" else "user")))) ].

(** Test 'should handle rules with void return':
    [[['voidRule', () => {}], ['normalRule', () => true]]]. *)
Definition void_rules : GatekeeperOptions (list string) :=
  mkOptions cast None
    [ ("voidRule", probe "voidRule" (Returns VUndefined));
      ("normalRule", probe "normalRule" (Returns (VBoolean true))) ].

(** Test 'should provide correct error information on failure'. *)
Definition failing_rule : GatekeeperOptions (list string) :=
  mkOptions cast None
    [ Part000.customRule "failingRule"
        (probe "failingRule" (Throws (Error_new "Custom error"))) ].

(** The example [[['a', () => { throw new Error('x') }], ['b', () =>
    'unreached']]] of the specification. *)
Definition failing_rules : GatekeeperOptions (list string) :=
  mkOptions cast None
    [ ("a", probe "a" (Throws (Error_new "x")));
      ("b", probe "b" (Returns (VString "unreached"))) ].

(** A promise rejected with a string, after a rule that succeeds. *)
Definition string_thrown : GatekeeperOptions (list string) :=
  mkOptions cast (Some cast)
    [ ("first", probe "first" (Resolves (VBoolean true)));
      ("second", probe "second" (Rejects (VString "denied")));
      ("third", probe "third" (Returns VNull)) ].

(** No rule, and a [capture] that refuses its input. *)
Definition refusing_capture : GatekeeperOptions (list string) :=
  mkOptions (refuse (Error_new "bad input")) None [].

(** One rule that always succeeds, behind a [capture] that refuses its
    input. *)
Definition refused_input : GatekeeperOptions (list string) :=
  mkOptions (refuse (Error_new "bad input")) None
    [ ("ok", probe "ok" (Returns (VBoolean true))) ].

(** No rule, and a [capture] that accepts its input. *)
Definition no_rules : GatekeeperOptions (list string) :=
  mkOptions cast (Some cast) [].

(** A rule that throws a plain object whose own [toString] is not a
    function: [() => { throw { toString: 'x' } }]. *)
Definition unprintable_thrown : GatekeeperOptions (list string) :=
  mkOptions cast None
    [ ("a", probe "a" (Throws (VObject [("toString", VString "x")])));
      ("b", probe "b" (Returns (VString "unreached"))) ].

(** A rule named ['__proto__'] that returns [true]. *)
Definition proto_rule : GatekeeperOptions (list string) :=
  mkOptions cast None
    [ ("__proto__", probe "__proto__" (Returns (VBoolean true))) ].

(** A [capture] that throws a [GatekeeperUnauthorizedError] of its own,
    made without a rule name:
    [() => { throw new GatekeeperUnauthorizedError('denied', new Error('x')) }]. *)
Definition capture_throws_unauthorized : GatekeeperOptions (list string) :=
  mkOptions
    (refuse (GatekeeperUnauthorizedError_new "denied" (Error_new "x") None))
    None
    [ ("ok", probe "ok" (Returns (VBoolean true))) ].

(** Two rules under one name. *)
Definition same_name_twice : GatekeeperOptions (list string) :=
  mkOptions cast None
    [ ("role", probe "first role" (Returns (VString "user")));
      ("other", probe "other" (Resolves VNull));
      ("role", probe "second role" (Returns (VString "admin"))) ].

(** A rule that returns nothing, after a rule of the same name. *)
Definition void_after_value : GatekeeperOptions (list string) :=
  mkOptions cast None
    [ ("role", probe "first role" (Returns (VString "user")));
      ("role", probe "second role" (Returns VUndefined)) ].

(** A rule whose promise is rejected with a plain object whose own
    [toString] is not a function, after a rule that passes. *)
Definition unprintable_rejected : GatekeeperOptions (list string) :=
  mkOptions cast (Some cast)
    [ ("first", probe "first" (Resolves (VBoolean true)));
      ("second", probe "second" (Rejects (VObject [("toString", VNull)]))) ].

(** An evaluator whose promise never settles, between two others. *)
Definition hanging_rule : GatekeeperOptions (list string) :=
  mkOptions cast None
    [ ("first", probe "first" (Returns (VBoolean true)));
      ("stuck", probe "stuck" NeverSettles);
      ("last", probe "last" (Returns (VBoolean true))) ].

(** * Properties *)

Section Loop.
Context {World : Type}.
Implicit Types (st : State World) (rules : list (Rule World)) (w : World).

(** The loop of either version makes the calls of a pass, and ends as
    the pass does; the versions differ in what they store. *)
Lemma for_of_run p c rules : ∀ k st,
  ∃ evs vs fin w' cur,
    rule_run p c k rules (world st) evs vs fin w' ∧
    (∀ tag e, fin = Failed tag e → cur = Some tag) ∧
    ∀ src acc,
      for_of_of src k rules p c acc st =
        (loop_outcome src acc vs fin, mkState w' (trace st ++ evs) cur).
Proof.
  induction rules as [|[tag rule] rest IH]; intros k st.
  - exists [], [], Completed, (world st), (currentRule st).
    split; [constructor|]. split; [done|].
    intros src acc. destruct src, st; cbn; by rewrite app_nil_r.
  - destruct (rule p c (world st)) as [compl w1] eqn:Hcall.
    assert (Hstep : ∀ src acc, for_of_of src k ((tag, rule) :: rest) p c acc st =
      match compl with
      | Returns v | Resolves v =>
          for_of_of src (S k) rest p c (store src acc (tag, v))
            (mkState w1 (trace st ++ [CallRule k tag p c compl]) (Some tag))
      | Throws e | Rejects e =>
          (Abrupt e, mkState w1 (trace st ++ [CallRule k tag p c compl]) (Some tag))
      | NeverSettles =>
          (Diverges, mkState w1 (trace st ++ [CallRule k tag p c compl]) (Some tag))
      end).
    { intros [] acc; cbn; unfold bind, set_currentRule, await_rule; cbn;
        rewrite Hcall; by destruct compl. }
    destruct (fulfils_with compl) as [v|] eqn:Hv.
    + destruct (IH (S k)
        (mkState w1 (trace st ++ [CallRule k tag p c compl]) (Some tag)))
        as (evs & vs & fin & w' & cur & Hrun & Hcur & Heq).
      exists (CallRule k tag p c compl :: evs), ((tag, v) :: vs), fin, w', cur.
      split; [by eapply run_value|]. split; [done|].
      intros src acc. rewrite Hstep.
      destruct compl; simplify_eq/=; rewrite Heq; cbn; by rewrite <-app_assoc.
    + destruct (fails_with compl) as [e|] eqn:He.
      * exists [CallRule k tag p c compl], [], (Failed tag e), w1, (Some tag).
        split; [by eapply run_error|]. split; [by intros ?? [= -> _]|].
        intros src acc. rewrite Hstep. by destruct compl; simplify_eq/=.
      * exists [CallRule k tag p c NeverSettles], [], Hung, w1, (Some tag).
        split; [destruct compl; simplify_eq/=; by eapply run_hung|].
        split; [done|].
        intros src acc. rewrite Hstep. by destruct compl; simplify_eq/=.
Qed.

End Loop.

Section RunFacts.
Context {World : Type}.
Implicit Types (rules : list (Rule World)) (w : World) (evs : list Event).

Lemma fulfils_fails c v e : fulfils_with c = Some v → fails_with c = Some e → False.
Proof. by destruct c. Qed.

(** Every call of a pass is the call of a rule of the list, at its
    position, with the parameters and context of the pass, and it
    records what that evaluator did. *)
Lemma run_call_inv p c k rules w evs vs fin w' j tag p' c' compl :
  rule_run p c k rules w evs vs fin w' →
  CallRule j tag p' c' compl ∈ evs →
  p' = p ∧ c' = c ∧ k ≤ j ∧
  ∃ rule w0 w1, rules !! (j - k) = Some (tag, rule) ∧ rule p c w0 = (compl, w1).
Proof.
  induction 1 as [k w|k tag0 rule rest w compl0 w1 v evs vs fin w2 Hcall Hv Hrun IH
                  |k tag0 rule rest w compl0 w1 e Hcall He
                  |k tag0 rule rest w w1 Hcall]; intros Hin.
  - by apply elem_of_nil in Hin.
  - apply elem_of_cons in Hin as [[= -> -> -> -> ->]|Hin].
    + repeat split; [lia|]. exists rule, w, w1. by rewrite Nat.sub_diag.
    + destruct (IH Hin) as (-> & -> & Hle & rule' & w0 & w1' & Hlook & Hdid).
      repeat split; [lia|]. exists rule', w0, w1'.
      by replace (j - k) with (S (j - S k)) by lia.
  - apply list_elem_of_singleton in Hin as [= -> -> -> -> ->].
    repeat split; [lia|]. exists rule, w, w1. by rewrite Nat.sub_diag.
  - apply list_elem_of_singleton in Hin as [= -> -> -> -> ->].
    repeat split; [lia|]. exists rule, w, w1. by rewrite Nat.sub_diag.
Qed.

(** A pass calls the rules at positions [k], [k+1], ... in this order,
    without a gap and without a repetition. *)
Lemma run_positions p c k rules w evs vs fin w' :
  rule_run p c k rules w evs vs fin w' →
  (rule_calls evs).*1 = seq k (length evs) ∧ length evs ≤ length rules.
Proof.
  induction 1 as [k w|k tag0 rule rest w compl0 w1 v evs vs fin w2 Hcall Hv Hrun [IH1 IH2]
                  |k tag0 rule rest w compl0 w1 e0 Hcall He
                  |k tag0 rule rest w w1 Hcall]; cbn; [done| |split; [done|lia]..].
  unfold rule_calls in IH1. rewrite IH1. split; [done|lia].
Qed.

(** A call that fails is the last call of the pass, and the pass ends
    with the failure of that rule. *)
Lemma run_failure p c k rules w evs vs fin w' j tag p' c' compl e :
  rule_run p c k rules w evs vs fin w' →
  CallRule j tag p' c' compl ∈ evs →
  fails_with compl = Some e →
  fin = Failed tag e ∧
  ∀ j' tag' p'' c'' compl', CallRule j' tag' p'' c'' compl' ∈ evs → j' ≤ j.
Proof.
  induction 1 as [k w|k tag0 rule rest w compl0 w1 v evs vs fin w2 Hcall Hv Hrun IH
                  |k tag0 rule rest w compl0 w1 e0 Hcall He
                  |k tag0 rule rest w w1 Hcall]; intros Hin Hfail.
  - by apply elem_of_nil in Hin.
  - apply elem_of_cons in Hin as [[= -> -> -> -> ->]|Hin].
    + by destruct (fulfils_fails _ _ _ Hv Hfail).
    + destruct (IH Hin Hfail) as [-> Hmax]. split; [done|].
      intros j' tag' p'' c'' compl' [[= -> -> -> -> ->]|Hin']%elem_of_cons.
      * destruct (run_call_inv _ _ _ _ _ _ _ _ _ _ _ _ _ _ Hrun Hin) as (_ & _ & ? & _).
        lia.
      * by eapply Hmax.
  - apply list_elem_of_singleton in Hin as [= -> -> -> -> ->].
    split; [congruence|].
    by intros j' tag' p'' c'' compl' [= -> -> -> -> ->]%list_elem_of_singleton.
  - by apply list_elem_of_singleton in Hin as [= -> -> -> -> ->].
Qed.

(** A pass that ends with a failure made a call, of a rule of the list
    with that name, that failed with that error. *)
Lemma run_Failed p c k rules w evs vs fin w' tag e :
  rule_run p c k rules w evs vs fin w' →
  fin = Failed tag e →
  tag ∈ rules.*1 ∧
  ∃ j compl, CallRule j tag p c compl ∈ evs ∧ fails_with compl = Some e.
Proof.
  induction 1 as [k w|k tag0 rule rest w compl0 w1 v evs vs fin w2 Hcall Hv Hrun IH
                  |k tag0 rule rest w compl0 w1 e0 Hcall He
                  |k tag0 rule rest w w1 Hcall]; intros Hfin; try done.
  - destruct (IH Hfin) as (Hin & j & compl & Hev & Hfail).
    split; [cbn; by apply elem_of_cons; right|].
    exists j, compl. split; [by apply elem_of_cons; right|done].
  - injection Hfin as -> ->. split; [cbn; by apply elem_of_cons; left|].
    exists k, compl0. split; [by apply list_elem_of_singleton|done].
Qed.

(** A pass makes rule calls only. *)
Lemma run_only_rules p c k rules w evs vs fin w' ev :
  rule_run p c k rules w evs vs fin w' →
  ev ∈ evs → ∃ j tag compl, ev = CallRule j tag p c compl.
Proof.
  induction 1 as [k w|k tag0 rule rest w compl0 w1 v evs vs fin w2 Hcall Hv Hrun IH
                  |k tag0 rule rest w compl0 w1 e0 Hcall He
                  |k tag0 rule rest w w1 Hcall]; intros Hin.
  - by apply elem_of_nil in Hin.
  - apply elem_of_cons in Hin as [->|Hin]; eauto.
  - apply list_elem_of_singleton in Hin as ->; eauto.
  - apply list_elem_of_singleton in Hin as ->; eauto.
Qed.

(** The context phase makes at most the one call of the context
    function. *)
Lemma context_phase_calls (options : GatekeeperOptions World) raw w pre r1 w1 ev :
  context_phase options raw w pre r1 w1 →
  ev ∈ pre → ev = CallContext raw r1.
Proof.
  destruct 1; intros Hin.
  - by apply elem_of_nil in Hin.
  - by apply list_elem_of_singleton in Hin.
Qed.

Lemma run_rule_calls_length p c k rules w evs vs fin w' :
  rule_run p c k rules w evs vs fin w' →
  length (rule_calls evs) = length evs.
Proof. induction 1; cbn; [done| |done..]. unfold rule_calls in *. lia. Qed.

Lemma run_other_calls p c k rules w evs vs fin w' :
  rule_run p c k rules w evs vs fin w' →
  context_calls evs = [] ∧ capture_calls evs = [].
Proof. by induction 1. Qed.

(** In a pass, every call but the last one was fulfilled with a
    value: the next evaluator is called only then. *)
Lemma run_settled_before_next p c k rules w evs vs fin w' i j compl :
  rule_run p c k rules w evs vs fin w' →
  rule_calls evs !! i = Some (j, compl) →
  S i < length evs →
  is_Some (fulfils_with compl).
Proof.
  intros Hrun. revert i.
  induction Hrun as [k w|k tag0 rule rest w compl0 w1 v evs vs fin w2 Hcall Hv Hrun IH
                  |k tag0 rule rest w compl0 w1 e0 Hcall He
                  |k tag0 rule rest w w1 Hcall]; intros i Hi Hlt; cbn in *; try lia.
  destruct i as [|i]; cbn in Hi.
  - injection Hi as <- <-. by rewrite Hv.
  - apply (IH i); [done|lia].
Qed.

(** A pass that completes has called every rule, and obtained from
    each the value it keeps for it. *)
Lemma run_Completed p c k rules w evs vs w' :
  rule_run p c k rules w evs vs Completed w' →
  vs.*1 = rules.*1 ∧
  ∀ i tag v, vs !! i = Some (tag, v) →
    ∃ compl, CallRule (k + i) tag p c compl ∈ evs ∧ fulfils_with compl = Some v.
Proof.
  remember Completed as fin eqn:Hfin.
  induction 1 as [k w|k tag0 rule rest w compl0 w1 v evs vs fin w2 Hcall Hv Hrun IH
                  |k tag0 rule rest w compl0 w1 e0 Hcall He
                  |k tag0 rule rest w w1 Hcall]; try done.
  destruct (IH Hfin) as [Hnames Hvals]. split; [cbn; by rewrite Hnames|].
  intros [|i] tag v' Hi; cbn in Hi.
  - injection Hi as <- <-. exists compl0. rewrite Nat.add_0_r.
    split; [by apply elem_of_cons; left|done].
  - destruct (Hvals i tag v' Hi) as (compl & Hin & Hval).
    exists compl. replace (k + S i) with (S k + i) by lia.
    split; [by apply elem_of_cons; right|done].
Qed.

(** A pass completes, or it has made a call that was not fulfilled. *)
Lemma run_not_Completed p c k rules w evs vs fin w' :
  rule_run p c k rules w evs vs fin w' →
  fin = Completed ∨
  ∃ j tag compl, CallRule j tag p c compl ∈ evs ∧ fulfils_with compl = None.
Proof.
  induction 1 as [k w|k tag0 rule rest w compl0 w1 v evs vs fin w2 Hcall Hv Hrun IH
                  |k tag0 rule rest w compl0 w1 e0 Hcall He
                  |k tag0 rule rest w w1 Hcall]; [by left| |right..].
  - destruct IH as [->|(j & tag & compl & Hin & Hnone)]; [by left|right].
    exists j, tag, compl. split; [by apply elem_of_cons; right|done].
  - exists k, tag0, compl0. split; [by apply list_elem_of_singleton|].
    by destruct compl0.
  - exists k, tag0, NeverSettles. split; [by apply list_elem_of_singleton|done].
Qed.

End RunFacts.

Section Trust.
Context {World : Type}.
Implicit Types (options : GatekeeperOptions World) (w : World).

(** The [catch] block of either version throws the translation of the
    value caught. *)
Lemma catch_throws src error (st : State World) :
  match src with
  | lib_index => Lib_catch error st
  | part_000 => Part000_catch error st
  end = (Abrupt (translation error (currentRule st)), st).
Proof.
  destruct src; unfold Lib_catch, Part000_catch, translation, String_call;
    destruct (instanceof_Error error); cbn; try done;
    by destruct (String_ error).
Qed.

Lemma trust_after_context src options input ctx w pre c w1 :
  (context options = None ∧ pre = [] ∧ c = VUndefined ∧ w1 = w) ∨
  (∃ f, context options = Some f ∧ f (optional ctx) w = (Returned c, w1) ∧
        pre = [CallContext (optional ctx) (Returned c)]) →
  trust_of src options input ctx w =
    async_from (after_context src options input c) (mkState w1 pre None).
Proof.
  intros Hpre.
  assert (trust_of src options input ctx w =
    async_from (bind (call CallCapture (capture options) input) (λ p st,
      match src with
      | lib_index => try_catch (Lib.for_of 0 (rules options) p c (plain ∅)) Lib_catch st
      | part_000 =>
          try_catch (Part000.for_of 0 (rules options) p c (plain ∅)) Part000_catch st
      end)) (mkState w1 pre None)) as ->.
  { destruct src;
      unfold trust_of, Lib.trust, Lib.trust_body, Part000.trust,
        Part000.trust_body, async, async_from at 1;
      unfold bind at 1 2; cbn;
      (destruct Hpre as [(-> & -> & -> & ->)|(f & -> & Hf & ->)]; [done|]);
      unfold call at 1; cbn; by rewrite Hf. }
  unfold after_context, async_from, bind.
  destruct (call _ _ _ _) as [[p|e|] st]; [|done..].
  unfold try_catch, for_of_of.
  destruct src.
  - destruct (Lib.for_of _ _ _ _ _ _) as [[m|e|] st']; try done.
    by rewrite (catch_throws lib_index).
  - destruct (Part000.for_of _ _ _ _ _ _) as [[m|e|] st']; try done.
    by rewrite (catch_throws part_000).
Qed.

(** Every invocation of [trust] has one of three shapes: the context
    function throws; [capture] throws; or the loop runs.  The calls made
    and the way the loop ends are the same in both versions. *)
Lemma trust_cases options input ctx w :
  ∃ pre r1 w1,
    context_phase options (optional ctx) w pre r1 w1 ∧
    match r1 with
    | Threw e =>
        ∀ src, trust_of src options input ctx w = mkRun (Rejected e) w1 pre
    | Returned c =>
        ∃ r2 w2,
          capture options input w1 = (r2, w2) ∧
          match r2 with
          | Threw e =>
              ∀ src, trust_of src options input ctx w =
                mkRun (Rejected e) w2 (pre ++ [CallCapture input r2])
          | Returned p =>
              ∃ evs vs fin w3,
                rule_run p c 0 (rules options) w2 evs vs fin w3 ∧
                ∀ src, trust_of src options input ctx w =
                  mkRun (trust_result src vs fin) w3
                    (pre ++ CallCapture input r2 :: evs)
          end
    end.
Proof.
  assert (Hbody : ∀ c w1 pre,
    ∃ r2 w2,
      capture options input w1 = (r2, w2) ∧
      match r2 with
      | Threw e =>
          ∀ src, async_from (after_context src options input c) (mkState w1 pre None) =
            mkRun (Rejected e) w2 (pre ++ [CallCapture input r2])
      | Returned p =>
          ∃ evs vs fin w3,
            rule_run p c 0 (rules options) w2 evs vs fin w3 ∧
            ∀ src, async_from (after_context src options input c) (mkState w1 pre None) =
              mkRun (trust_result src vs fin) w3
                (pre ++ CallCapture input r2 :: evs)
      end).
  { intros c w1 pre.
    destruct (capture options input w1) as [r2 w2] eqn:Hcap.
    exists r2, w2. split; [done|]. destruct r2 as [p|e].
    - destruct (for_of_run p c (rules options) 0
        (mkState w2 (pre ++ [CallCapture input (Returned p)]) None))
        as (evs & vs & fin & w3 & cur' & Hrun & Hcur & Heq).
      exists evs, vs, fin, w3. split; [done|]. intros src.
      unfold async_from, after_context, bind, call; cbn. rewrite Hcap.
      unfold try_catch. rewrite Heq. cbn. rewrite <-app_assoc. cbn.
      destruct fin as [|tag e|]; cbn; try done.
      rewrite (Hcur tag e eq_refl). done.
    - intros src. unfold async_from, after_context, bind, call; cbn.
      by rewrite Hcap. }
  destruct (context options) as [f|] eqn:Hctx.
  - destruct (f (optional ctx) w) as [r1 w1] eqn:Hf.
    exists [CallContext (optional ctx) r1], r1, w1.
    split; [by eapply context_called|]. destruct r1 as [c|e].
    + destruct (Hbody c w1 [CallContext (optional ctx) (Returned c)])
        as (r2 & w2 & Hcap & H).
      assert (Hstart : ∀ src, trust_of src options input ctx w =
        async_from (after_context src options input c)
          (mkState w1 [CallContext (optional ctx) (Returned c)] None)).
      { intros src. apply trust_after_context. right. by exists f. }
      exists r2, w2. split; [done|]. destruct r2 as [p|e].
      * destruct H as (evs & vs & fin & w3 & Hrun & H).
        exists evs, vs, fin, w3. split; [done|].
        intros src. by rewrite Hstart.
      * intros src. by rewrite Hstart.
    + intros src.
      destruct src; unfold trust_of, Lib.trust, Lib.trust_body,
        Part000.trust, Part000.trust_body, async, async_from;
        unfold bind at 1 2; cbn; rewrite Hctx; unfold call at 1; cbn;
        by rewrite Hf.
  - exists [], (Returned VUndefined), w. split; [by constructor|].
    destruct (Hbody VUndefined w []) as (r2 & w2 & Hcap & H).
    assert (Hstart : ∀ src, trust_of src options input ctx w =
      async_from (after_context src options input VUndefined) (mkState w [] None)).
    { intros src. apply trust_after_context. by left. }
    exists r2, w2. split; [done|]. destruct r2 as [p|e].
    + destruct H as (evs & vs & fin & w3 & Hrun & H).
      exists evs, vs, fin, w3. split; [done|].
      intros src. by rewrite Hstart.
    + intros src. by rewrite Hstart.
Qed.

End Trust.

(** The three shapes of an invocation, with its trace taken apart; to
    be used while the statement is still in the goal. *)
Local Ltac invocation src options input ctx w :=
  let pre := fresh "pre" in
  let Hpre := fresh "Hpre" in
  let Hrun := fresh "Hrun" in
  let Htrust := fresh "Htrust" in
  let Hcap := fresh "Hcap" in
  destruct (trust_cases options input ctx w)
    as (pre & [?c|?e] & ?w1 & Hpre & Htrust);
  [ destruct Htrust as ([?p|?e] & ?w2 & Hcap & Htrust);
    [ destruct Htrust as (?evs & ?vs & ?fin & ?w3 & Hrun & Htrust) | ]
  | ];
  rewrite !Htrust; cbn [result after calls]; clear Htrust.

(** In a trace, the calls before the loop are not rule calls. *)
Local Ltac trace_member H :=
  repeat match type of H with
  | _ ∈ _ ++ _ => apply elem_of_app in H as [H|H]
  | _ ∈ _ :: _ => apply elem_of_cons in H as [H|H]
  | _ ∈ [] => by apply elem_of_nil in H
  end.

(** ** What the loop leaves in [returnOfRuleSet] *)

(** An assignment under another name than ['__proto__'] creates or
    updates the own property. *)
Lemma assign_ordinary tag v (o : Rules) :
  tag ≠ "__proto__" →
  assign tag v o = mkRules (<[tag := v]> (own o)) (prototype o).
Proof. intros Hne. unfold assign. by rewrite bool_decide_eq_false_2. Qed.

(** An assignment leaves the own properties as they are, and is one to
    ['__proto__'] that reaches the setter, or it creates or updates the
    own property. *)
Lemma assign_cases tag v (o : Rules) :
  (tag = "__proto__" ∧ reaches_proto_setter o = true ∧
   own (assign tag v o) = own o) ∨
  assign tag v o = mkRules (<[tag := v]> (own o)) (prototype o).
Proof.
  unfold assign. case_bool_decide as Htag; cbn; [|by right].
  destruct (reaches_proto_setter o) eqn:Hreach; [left|by right].
  by destruct v.
Qed.

Lemma assign_lookup_ne tag tag' v (o : Rules) :
  tag ≠ tag' → own (assign tag v o) !! tag' = own o !! tag'.
Proof.
  intros Hne. destruct (assign_cases tag v o) as [(_ & _ & ->)| ->]; [done|].
  cbn. by rewrite lookup_insert_ne.
Qed.

Lemma assign_lookup_eq tag v (o : Rules) :
  tag ≠ "__proto__" → own (assign tag v o) !! tag = Some v.
Proof. intros Hne. rewrite assign_ordinary by done. cbn. by rewrite lookup_insert_eq. Qed.

Lemma assign_origin tag tag' v x (o : Rules) :
  own (assign tag v o) !! tag' = Some x →
  own o !! tag' = Some x ∨ (tag' = tag ∧ x = v).
Proof.
  destruct (assign_cases tag v o) as [(_ & _ & ->)| ->]; [by left|]. cbn.
  destruct (decide (tag = tag')) as [->|Hne].
  - rewrite lookup_insert_eq. intros [= ->]. by right.
  - rewrite lookup_insert_ne by done. by left.
Qed.

Lemma foldl_store_defined src (vs : list (string * Value)) (acc : Rules) :
  Forall (λ entry, entry.2 ≠ VUndefined) vs →
  foldl (store src) acc vs = foldl (store lib_index) acc vs.
Proof.
  intros Hall. revert acc.
  induction Hall as [|[tag v] vs Hv _ IH]; intros acc; [done|].
  cbn. rewrite <-IH. f_equal. destruct src; [done|]. by destruct v.
Qed.

Lemma foldl_insert_list_to_map (vs : list (string * Value)) (acc : Rules) :
  "__proto__" ∉ vs.*1 →
  foldl (store lib_index) acc vs =
    mkRules (list_to_map (reverse vs) ∪ own acc) (prototype acc).
Proof.
  revert acc. induction vs as [|[tag v] vs IH]; intros acc Hproto.
  - rewrite reverse_nil. cbn. rewrite (left_id_L ∅ (∪)). by destruct acc.
  - apply not_elem_of_cons in Hproto as [Htag Hproto]. cbn in Htag.
    rewrite reverse_cons, list_to_map_app.
    change (foldl (store lib_index) acc ((tag, v) :: vs))
      with (foldl (store lib_index) (assign tag v acc) vs).
    rewrite IH by done. rewrite assign_ordinary by done. cbn.
    rewrite <-(assoc_L (∪)). do 2 f_equal.
    by rewrite insert_empty, <-insert_union_singleton_l.
Qed.

Lemma foldl_store_entries src (vs : list (string * Value)) :
  Forall (λ entry, entry.2 ≠ VUndefined) vs →
  NoDup vs.*1 →
  "__proto__" ∉ vs.*1 →
  dom (own (foldl (store src) (plain ∅) vs)) = list_to_set vs.*1 ∧
  size (own (foldl (store src) (plain ∅) vs)) = length vs ∧
  prototype (foldl (store src) (plain ∅) vs) = Object_prototype ∧
  ∀ tag v, (tag, v) ∈ vs → own (foldl (store src) (plain ∅) vs) !! tag = Some v.
Proof.
  intros Hall Hnodup Hproto.
  rewrite (foldl_store_defined _ _ _ Hall), foldl_insert_list_to_map by done.
  cbn. rewrite (right_id_L ∅ (∪)).
  assert (Hnodup' : NoDup (reverse vs).*1).
  { by rewrite fmap_reverse, reverse_Permutation. }
  repeat split.
  - rewrite dom_list_to_map_L, fmap_reverse.
    apply set_eq. intros tag.
    by rewrite !elem_of_list_to_set, elem_of_reverse.
  - by rewrite map_size_list_to_map, length_reverse.
  - intros tag v Hin. apply elem_of_list_to_map; [done|].
    by apply elem_of_reverse.
Qed.

(** [part_000] never stores [undefined]. *)
Lemma foldl_store_part_000 (vs : list (string * Value)) (acc : Rules) :
  (∀ tag, own acc !! tag ≠ Some VUndefined) →
  ∀ tag, own (foldl (store part_000) acc vs) !! tag ≠ Some VUndefined.
Proof.
  revert acc. induction vs as [|[tag0 v] vs IH]; intros acc Hacc; [done|].
  cbn. apply IH. intros tag.
  destruct (is_defined v) eqn:Hv; [|done].
  intros [Hold|[_ Heq]]%assign_origin; [by apply (Hacc tag)|].
  by rewrite <-Heq in Hv.
Qed.

(** An object has an own property ['__proto__'] only when the setter
    of [Object.prototype] is not on its prototype chain; assignments
    keep it so. *)
Lemma assign_own_proto tag v (o : Rules) :
  (is_Some (own o !! "__proto__") → setter_on_chain (prototype o) = false) →
  is_Some (own (assign tag v o) !! "__proto__") →
  setter_on_chain (prototype (assign tag v o)) = false.
Proof.
  intros Hinv. unfold assign. case_bool_decide as Htag; cbn.
  - unfold reaches_proto_setter.
    destruct (own o !! "__proto__") as [x|] eqn:Hown; cbn.
    + intros _. apply Hinv. by exists x.
    + destruct (setter_on_chain (prototype o)) eqn:Hchain.
      * destruct v; cbn; rewrite ?Hown; by intros [? [=]].
      * by intros _.
  - rewrite lookup_insert_ne by done. apply Hinv.
Qed.

Lemma reaches_proto_setter_chain (o : Rules) :
  (is_Some (own o !! "__proto__") → setter_on_chain (prototype o) = false) →
  reaches_proto_setter o = setter_on_chain (prototype o).
Proof.
  intros Hinv. unfold reaches_proto_setter.
  destruct (own o !! "__proto__") as [x|]; [|done].
  symmetry. apply Hinv. by exists x.
Qed.

(** What [lib_index] stores and [part_000] does not is [undefined]. *)
Lemma foldl_store_versions (vs : list (string * Value)) (acc1 acc2 : Rules) :
  prototype acc2 = prototype acc1 →
  (is_Some (own acc1 !! "__proto__") → setter_on_chain (prototype acc1) = false) →
  (is_Some (own acc2 !! "__proto__") → setter_on_chain (prototype acc2) = false) →
  dom (own acc2) ⊆ dom (own acc1) →
  (∀ tag v, own acc1 !! tag = Some v → v ≠ VUndefined → own acc2 !! tag = Some v) →
  prototype (foldl (store part_000) acc2 vs) =
    prototype (foldl (store lib_index) acc1 vs) ∧
  dom (own (foldl (store part_000) acc2 vs)) ⊆
    dom (own (foldl (store lib_index) acc1 vs)) ∧
  ∀ tag v, own (foldl (store lib_index) acc1 vs) !! tag = Some v → v ≠ VUndefined →
    own (foldl (store part_000) acc2 vs) !! tag = Some v.
Proof.
  revert acc1 acc2.
  induction vs as [|[tag0 v0] vs IH]; intros acc1 acc2 Hproto Hinv1 Hinv2 Hdom Hval;
    [done|].
  cbn [foldl store fst snd].
  pose proof (reaches_proto_setter_chain _ Hinv1) as Hreach1.
  pose proof (reaches_proto_setter_chain _ Hinv2) as Hreach2.
  rewrite Hproto in Hreach2.
  pose proof (assign_own_proto tag0 v0 _ Hinv1) as Hinv1'.
  destruct (is_defined v0) eqn:Hdef.
  - pose proof (assign_own_proto tag0 v0 _ Hinv2) as Hinv2'.
    apply IH; [|done..| |]; clear IH.
    + unfold assign. rewrite Hreach1, Hreach2.
      destruct (bool_decide _ && _); [by destruct v0|done].
    + unfold assign. rewrite Hreach1, Hreach2.
      destruct (bool_decide _ && _); [by destruct v0|]. cbn.
      rewrite !dom_insert_L. by apply union_mono_l.
    + intros tag v. unfold assign. rewrite Hreach1, Hreach2.
      destruct (bool_decide _ && _); [destruct v0; by apply Hval|]. cbn.
      destruct (decide (tag0 = tag)) as [->|Hne].
      * by rewrite !lookup_insert_eq.
      * rewrite !lookup_insert_ne by done. by apply Hval.
  - assert (v0 = VUndefined) as -> by (by destruct v0).
    apply IH; [|done..| |]; clear IH.
    + rewrite Hproto. unfold assign. by destruct (bool_decide _ && _).
    + unfold assign. destruct (bool_decide _ && _); [done|]. cbn.
      rewrite dom_insert_L. by apply union_subseteq_r'.
    + intros tag v. unfold assign. destruct (bool_decide _ && _); [by apply Hval|].
      cbn. destruct (decide (tag0 = tag)) as [->|Hne].
      * rewrite lookup_insert_eq. by intros [= <-].
      * rewrite lookup_insert_ne by done. by apply Hval.
Qed.

(** An error is never its own translation. *)
Lemma not_its_own_reason (e : Value) : ∀ message rule,
  e ≠ VGatekeeperUnauthorizedError message e rule.
Proof.
  induction e as [| | | | | |message' reason IH rule']; intros msg rl; try done.
  intros [= _ Hreason _]. by apply (IH message' rule').
Qed.

Lemma not_its_own_translation (e : Value) (s : string) rule :
  e ≠ VGatekeeperUnauthorizedError "UNAUTHORIZED"
        (if instanceof_Error e then e else Error_new s) rule.
Proof.
  destruct (instanceof_Error e) eqn:He.
  - apply not_its_own_reason.
  - intros Heq. by rewrite Heq in He.
Qed.

(** The translation of a value is a [GatekeeperUnauthorizedError] with
    the caught error or [new Error(String(e))] as its reason, or the
    [TypeError] of a conversion to a string that throws. *)
Lemma translation_cases (e : Value) (rule : option string) :
  (instanceof_Error e = true ∧
   translation e rule = GatekeeperUnauthorizedError_new "UNAUTHORIZED" e rule) ∨
  (instanceof_Error e = false ∧
   ∃ s, String_ e = Some s ∧
     translation e rule =
       GatekeeperUnauthorizedError_new "UNAUTHORIZED" (Error_new s) rule) ∨
  (instanceof_Error e = false ∧ String_ e = None ∧
   translation e rule = no_primitive_value).
Proof.
  unfold translation. destruct (instanceof_Error e); [by left|right].
  destruct (String_ e) as [s|]; [left|by right]. split; [done|by exists s].
Qed.

Section TraceFacts.
Context {World : Type}.
Implicit Types (options : GatekeeperOptions World) (w : World).

Lemma rule_call_of_trace options raw w pre r1 w1 input0 r2 evs k tag p c compl :
  context_phase options raw w pre r1 w1 →
  CallRule k tag p c compl ∈ pre ++ CallCapture input0 r2 :: evs →
  CallRule k tag p c compl ∈ evs.
Proof.
  intros Hpre Hin. trace_member Hin; try done.
  by apply (context_phase_calls _ _ _ _ _ _ _ Hpre) in Hin.
Qed.

Lemma no_rule_call_before options raw w pre r1 w1 input0 r2 k tag p c compl :
  context_phase options raw w pre r1 w1 →
  CallRule k tag p c compl ∉ pre ++ [CallCapture input0 r2].
Proof.
  intros Hpre Hin. trace_member Hin; try done.
  by apply (context_phase_calls _ _ _ _ _ _ _ Hpre) in Hin.
Qed.

Lemma no_rule_call_in_context options raw w pre r1 w1 k tag p c compl :
  context_phase options raw w pre r1 w1 →
  CallRule k tag p c compl ∉ pre.
Proof.
  intros Hpre Hin. by apply (context_phase_calls _ _ _ _ _ _ _ Hpre) in Hin.
Qed.

Lemma fails_with_iff compl e :
  fails_with compl = Some e ↔ compl = Throws e ∨ compl = Rejects e.
Proof. destruct compl; cbn; intuition congruence. Qed.

Lemma fulfils_with_iff compl v :
  fulfils_with compl = Some v ↔ compl = Returns v ∨ compl = Resolves v.
Proof. destruct compl; cbn; intuition congruence. Qed.

Lemma rule_calls_of_trace options raw w pre r1 w1 input0 r2 evs :
  context_phase options raw w pre r1 w1 →
  rule_calls (pre ++ CallCapture input0 r2 :: evs) = rule_calls evs.
Proof. by destruct 1. Qed.

Lemma context_calls_of_trace options raw w pre r1 w1 input0 r2 evs :
  context_phase options raw w pre r1 w1 →
  context_calls evs = [] →
  context_calls (pre ++ CallCapture input0 r2 :: evs) = context_calls pre.
Proof.
  intros _ Hevs. unfold context_calls in *.
  rewrite omap_app. cbn. rewrite Hevs. by rewrite app_nil_r.
Qed.

Lemma normalised_check (tr : list Event) :
  forallb (λ ev, negb (threw ev)) tr = true → normalised tr.
Proof.
  intros Hall raw e. rewrite forallb_forall in Hall.
  split; intros Hin%list_elem_of_In%Hall; done.
Qed.

Lemma produced_value_check (tr : list Event) :
  forallb produced_value tr = true →
  ∀ k tag p c compl,
    CallRule k tag p c compl ∈ tr →
    ∃ v, (compl = Returns v ∨ compl = Resolves v) ∧ v ≠ VUndefined.
Proof.
  intros Hall k tag p c compl Hin%list_elem_of_In.
  rewrite forallb_forall in Hall. apply Hall in Hin. cbn in Hin.
  destruct (fulfils_with compl) as [v|] eqn:Hv; [|done].
  exists v. split; [by apply fulfils_with_iff|]. by intros ->.
Qed.

End TraceFacts.

(** * The tests of the repository and the examples of the specification *)

Example test_pass_all_rules :
  result (Part000.trust pass_all_rules (user "admin") None []) =
    Fulfilled (plain (<["getRole" := VString "admin"]>
                        (<["checkUserId" := VBoolean true]> ∅))).
Proof. reflexivity. Qed.

Example test_first_rule_fails :
  Part000.trust first_rule_fails (user "user") None [] =
    mkRun
      (Rejected (VGatekeeperUnauthorizedError "UNAUTHORIZED"
                   (VError "Error" "Not admin") "checkUserId"))
      ["checkUserId"]
      [ CallCapture (user "user") (Returned (user "user"));
        CallRule 0 "checkUserId" (user "user") VUndefined
          (Throws (VError "Error" "Not admin")) ].
Proof. reflexivity. Qed.

Example test_async_rule :
  result (Part000.trust async_rule (user "admin") None []) =
    Fulfilled (plain (<["asyncCheck" := VBoolean true]> ∅)).
Proof. reflexivity. Qed.

Example test_context_regular :
  result (Part000.trust context_aware (user "user") None []) =
    Fulfilled (plain (<["contextAwareCheck" := VString "user"]> ∅)).
Proof. reflexivity. Qed.

Example test_context_special :
  result (Part000.trust context_aware (user "user")
            (Some (VObject [("isSpecialMode", VBoolean true)])) []) =
    Fulfilled (plain (<["contextAwareCheck" := VString "special"]> ∅)).
Proof. reflexivity. Qed.

Example test_void_rule :
  ∃ m,
    result (Part000.trust void_rules (user "admin") None []) = Fulfilled m ∧
    m = plain (<["normalRule" := VBoolean true]> ∅) ∧
    "voidRule" ∉ dom (own m).
Proof.
  eexists. split; [reflexivity|]. split; [done|]. by apply not_elem_of_dom.
Qed.

Example test_error_information :
  ∃ error,
    result (Part000.trust failing_rule (user "admin") None []) = Rejected error ∧
    instanceof_GatekeeperUnauthorizedError error = true ∧
    message_of error = Some "UNAUTHORIZED" ∧
    (reason_of error ≫= message_of) = Some "Custom error" ∧
    rule_of error = Some "failingRule".
Proof. eexists. by split; [reflexivity|]. Qed.

Example example_rule_a_fails src :
  ∃ error,
    trust_of src failing_rules VNull None [] =
      mkRun (Rejected error) ["a"]
        [ CallCapture VNull (Returned VNull);
          CallRule 0 "a" VNull VUndefined (Throws (VError "Error" "x")) ] ∧
    rule_of error = Some "a" ∧
    (reason_of error ≫= message_of) = Some "x".
Proof. destruct src; eexists; by split; [reflexivity|]. Qed.

(** * The claims *)

(** C1 fails in the code.  The first rule throws a plain object whose
    own [toString] is not a function.  The [catch] block calls
    [String] on it, which throws a [TypeError] inside the block: in
    both versions [trust] rejects with that [TypeError], which is no
    [GatekeeperUnauthorizedError] and has neither a [rule] nor a
    [reason].  The second rule is not called. *)
Theorem unprintable_error_escapes_translation src :
  trust_of src unprintable_thrown VNull None [] =
    mkRun
      (Rejected (VError "TypeError" "Cannot convert object to primitive value"))
      ["a"]
      [ CallCapture VNull (Returned VNull);
        CallRule 0 "a" VNull VUndefined
          (Throws (VObject [("toString", VString "x")])) ] ∧
  (∀ x, result (trust_of src unprintable_thrown VNull None []) = Rejected x →
     instanceof_GatekeeperUnauthorizedError x = false ∧
     message_of x ≠ Some "UNAUTHORIZED" ∧
     rule_of x = None ∧
     reason_of x = None).
Proof. destruct src; (split; [reflexivity|]); by intros x [= <-]. Qed.

(** C5. If [capture] or the configured context function throws [e],
    [trust] rejects with [e] itself, not with a
    [GatekeeperUnauthorizedError] made from [e], and no rule evaluator
    is called. *)
Theorem normaliser_error_propagates {World : Type} src
    (options : GatekeeperOptions World) input ctx (w : World) raw e :
  CallCapture raw (Threw e) ∈ calls (trust_of src options input ctx w) ∨
  CallContext raw (Threw e) ∈ calls (trust_of src options input ctx w) →
  result (trust_of src options input ctx w) = Rejected e ∧
  (∀ rule s,
     result (trust_of src options input ctx w) ≠
       Rejected (VGatekeeperUnauthorizedError "UNAUTHORIZED"
                   (if instanceof_Error e then e else Error_new s) rule)) ∧
  ∀ k tag p c compl,
    CallRule k tag p c compl ∉ calls (trust_of src options input ctx w).
Proof.
  assert (Hplain : ∀ rule s,
    @Rejected Rules e ≠
      Rejected (VGatekeeperUnauthorizedError "UNAUTHORIZED"
                  (if instanceof_Error e then e else Error_new s) rule)).
  { intros rule s [= Heq]. by apply (not_its_own_translation e s rule). }
  invocation src options input ctx w; intros Hin.
  - exfalso. destruct Hin as [Hin|Hin]; trace_member Hin; try done.
    + by apply (context_phase_calls _ _ _ _ _ _ _ Hpre) in Hin.
    + by destruct (run_only_rules _ _ _ _ _ _ _ _ _ _ Hrun Hin) as (? & ? & ? & ?).
    + by apply (context_phase_calls _ _ _ _ _ _ _ Hpre) in Hin as [= _ ?].
    + by destruct (run_only_rules _ _ _ _ _ _ _ _ _ _ Hrun Hin) as (? & ? & ? & ?).
  - assert (e0 = e) as ->.
    { destruct Hin as [Hin|Hin]; trace_member Hin; try done.
      * by apply (context_phase_calls _ _ _ _ _ _ _ Hpre) in Hin.
      * by injection Hin as _ ->.
      * by apply (context_phase_calls _ _ _ _ _ _ _ Hpre) in Hin as [= _ ?]. }
    split; [done|]. split; [done|].
    intros k tag p c' compl. by eapply no_rule_call_before.
  - assert (e0 = e) as ->.
    { destruct Hin as [Hin|Hin].
      * by apply (context_phase_calls _ _ _ _ _ _ _ Hpre) in Hin.
      * by apply (context_phase_calls _ _ _ _ _ _ _ Hpre) in Hin as [= _ ->]. }
    split; [done|]. split; [done|].
    intros k tag p c compl. by eapply no_rule_call_in_context.
Qed.

Lemma normaliser_error_propagates_witness :
  result (trust_of lib_index refusing_capture (VString "raw") None []) =
    Rejected (VError "Error" "bad input") ∧
  (∀ rule (s : string),
     result (trust_of lib_index refusing_capture (VString "raw") None []) ≠
       Rejected (VGatekeeperUnauthorizedError "UNAUTHORIZED"
                   (VError "Error" "bad input") rule)) ∧
  ∀ k tag p c compl,
    CallRule k tag p c compl ∉
      calls (trust_of lib_index refusing_capture (VString "raw") None []).
Proof.
  apply (normaliser_error_propagates lib_index refusing_capture (VString "raw") None []
           (VString "raw") (Error_new "bad input")).
  left. vm_compute. repeat constructor.
Defined.

(** C7 fails in the code.  The second rule returns a promise that is
    rejected with a plain object whose own [toString] is not a
    function.  The error [trust] raises from within the loop is the
    [TypeError] that [String] throws in the [catch] block: it is no
    [GatekeeperUnauthorizedError] and has no [reason]. *)
Theorem loop_error_can_lack_a_reason src :
  ∃ x,
    result (trust_of src unprintable_rejected VNull None []) = Rejected x ∧
    CallRule 1 "second" VNull VUndefined (Rejects (VObject [("toString", VNull)]))
      ∈ calls (trust_of src unprintable_rejected VNull None []) ∧
    instanceof_TypeError x = true ∧
    instanceof_GatekeeperUnauthorizedError x = false ∧
    reason_of x = None.
Proof.
  destruct src; eexists; (split; [reflexivity|]); (split; [|done]);
    vm_compute; repeat constructor.
Qed.

(** C10, as stated, fails: [capture] runs outside the [try] block, and
    what it throws reaches the caller as it is.  Here it throws a
    [GatekeeperUnauthorizedError] made without a rule name, and
    [trust] rejects with it: its [rule] is ['failcheck'], which names
    no rule of the list. *)
Lemma failcheck_can_be_observed :
  (rules capture_throws_unauthorized).*1 = ["ok"] ∧
  ∀ src, ∃ x,
    result (trust_of src capture_throws_unauthorized VNull None []) = Rejected x ∧
    instanceof_GatekeeperUnauthorizedError x = true ∧
    rule_of x = Some "failcheck" ∧
    "failcheck" ∉ (rules capture_throws_unauthorized).*1.
Proof.
  split; [done|]. intros src. eexists.
  split; [by destruct src|]. split; [done|]. split; [done|].
  by intros [= ]%list_elem_of_singleton.
Qed.

(** C10, amended. The loop is never left by an exception with
    [currentRule] undefined: it then holds the name of a rule of the
    configured list.  So in every invocation in which neither
    [capture] nor the context function throws, every
    [GatekeeperUnauthorizedError] that [trust] rejects with carries in
    [rule] the name of a configured rule, and the fallback
    ['failcheck'] of the constructor is not used: [rule] is
    ['failcheck'] only when a configured rule has that name. *)
Theorem loop_error_rule_is_configured {World : Type} src
    (options : GatekeeperOptions World) input ctx (w : World) :
  (∀ p c st e st',
     for_of_of src 0 (rules options) p c (plain ∅) st = (Abrupt e, st') →
     ∃ tag, currentRule st' = Some tag ∧ tag ∈ (rules options).*1) ∧
  (∀ x,
     result (trust_of src options input ctx w) = Rejected x →
     normalised (calls (trust_of src options input ctx w)) →
     instanceof_GatekeeperUnauthorizedError x = true →
     ∃ tag reason,
       x = GatekeeperUnauthorizedError_new "UNAUTHORIZED" reason (Some tag) ∧
       rule_of x = Some tag ∧
       tag ∈ (rules options).*1 ∧
       (tag = "failcheck" → "failcheck" ∈ (rules options).*1)).
Proof.
  split.
  - intros p c st e st' Heq.
    destruct (for_of_run p c (rules options) 0 st)
      as (evs & vs & fin & w' & cur & Hrun & Hcur & Heq').
    specialize (Heq' src (plain ∅)). rewrite Heq in Heq'.
    destruct fin as [|tag e0|]; try done.
    injection Heq' as -> ->. exists tag. split; [by apply (Hcur tag e0)|].
    by destruct (run_Failed _ _ _ _ _ _ _ _ _ _ _ Hrun eq_refl).
  - invocation src options input ctx w; intros x Hres Hnorm Hgue.
    + destruct fin as [|tag e|]; try done. injection Hres as <-.
      destruct (run_Failed _ _ _ _ _ _ _ _ _ _ _ Hrun eq_refl) as [Htag _].
      destruct (translation_cases e (Some tag))
        as [[_ Heq]|[(_ & s & _ & Heq)|(_ & _ & Heq)]]; rewrite Heq in Hgue |- *.
      * exists tag, e. repeat split; [done|by intros <-].
      * exists tag, (Error_new s). repeat split; [done|by intros <-].
      * done.
    + destruct (Hnorm input e) as [[] _].
      apply elem_of_app; right. by apply list_elem_of_singleton.
    + destruct (Hnorm (optional ctx) e) as [_ []].
      inversion Hpre; subst. by apply list_elem_of_singleton.
Qed.

Lemma loop_error_rule_is_configured_witness :
  ∃ tag reason,
    VGatekeeperUnauthorizedError "UNAUTHORIZED" (VError "Error" "denied") "second" =
      GatekeeperUnauthorizedError_new "UNAUTHORIZED" reason (Some tag) ∧
    rule_of (VGatekeeperUnauthorizedError "UNAUTHORIZED"
               (VError "Error" "denied") "second") = Some tag ∧
    tag ∈ (rules string_thrown).*1 ∧
    (tag = "failcheck" → "failcheck" ∈ (rules string_thrown).*1).
Proof.
  apply (loop_error_rule_is_configured part_000 string_thrown VNull (Some VNull) []).
  - reflexivity.
  - by apply normalised_check.
  - reflexivity.
Defined.

(** C8. In every invocation the evaluators are called one after the
    other in the order of the rule list: the calls made are those of
    the rules at positions 0, 1, ..., n-1, in this order, each the call
    of the evaluator declared at its position, under the name declared
    there, and every call but the last one has settled, with a value,
    before the next one is made. *)
Theorem rules_run_in_declared_order {World : Type} src
    (options : GatekeeperOptions World) input ctx (w : World) :
  ∃ n,
    n ≤ length (rules options) ∧
    (rule_calls (calls (trust_of src options input ctx w))).*1 = seq 0 n ∧
    (∀ k tag p c compl,
       CallRule k tag p c compl ∈ calls (trust_of src options input ctx w) →
       ∃ rule w0 w1,
         rules options !! k = Some (tag, rule) ∧ rule p c w0 = (compl, w1)) ∧
    (∀ i k compl,
       rule_calls (calls (trust_of src options input ctx w)) !! i = Some (k, compl) →
       S i < n →
       ∃ v, compl = Returns v ∨ compl = Resolves v).
Proof.
  invocation src options input ctx w.
  - exists (length evs).
    rewrite (rule_calls_of_trace _ _ _ _ _ _ _ _ _ Hpre).
    destruct (run_positions _ _ _ _ _ _ _ _ _ Hrun) as [Hseq Hlen].
    repeat split; [done..| |].
    + intros k tag p' c' compl Hin.
      apply (rule_call_of_trace _ _ _ _ _ _ _ _ _ _ _ _ _ _ Hpre) in Hin.
      destruct (run_call_inv _ _ _ _ _ _ _ _ _ _ _ _ _ _ Hrun Hin)
        as (-> & -> & _ & rule & w0 & w1' & Hlook & Hdid).
      rewrite Nat.sub_0_r in Hlook. by exists rule, w0, w1'.
    + intros i k compl Hi Hlt.
      destruct (run_settled_before_next _ _ _ _ _ _ _ _ _ _ _ _ Hrun Hi Hlt)
        as [v Hv].
      exists v. by apply fulfils_with_iff.
  - exists 0. destruct Hpre; cbn; (repeat split; try done; try lia);
      intros k tag p c' compl Hin; trace_member Hin; done.
  - exists 0. destruct Hpre; cbn; (repeat split; try done; try lia);
      intros k tag p c' compl Hin; trace_member Hin; done.
Qed.

Lemma rules_run_in_declared_order_witness :
  ∃ n,
    n ≤ length (rules string_thrown) ∧
    (rule_calls (calls (trust_of part_000 string_thrown VNull None []))).*1 = seq 0 n ∧
    (∀ k tag p c compl,
       CallRule k tag p c compl ∈ calls (trust_of part_000 string_thrown VNull None []) →
       ∃ rule w0 w1,
         rules string_thrown !! k = Some (tag, rule) ∧ rule p c w0 = (compl, w1)) ∧
    (∀ i k compl,
       rule_calls (calls (trust_of part_000 string_thrown VNull None [])) !! i
         = Some (k, compl) →
       S i < n →
       ∃ v, compl = Returns v ∨ compl = Resolves v).
Proof. apply (rules_run_in_declared_order part_000 string_thrown VNull None []). Defined.

(** C9. Every evaluator called in an invocation receives the same
    context value.  With a context function configured, that function
    is called exactly once, on the raw context given to [trust]
    ([undefined] when the caller gave none), and the value it returns
    is the context of every evaluator.  With no context function, the
    context of every evaluator is [undefined], whatever raw context was
    given. *)
Theorem rules_share_one_context {World : Type} src
    (options : GatekeeperOptions World) input ctx (w : World) :
  match context options with
  | Some f =>
      context_calls (calls (trust_of src options input ctx w)) =
        [(optional ctx, (f (optional ctx) w).1)] ∧
      ∀ k tag p c compl,
        CallRule k tag p c compl ∈ calls (trust_of src options input ctx w) →
        (f (optional ctx) w).1 = Returned c
  | None =>
      context_calls (calls (trust_of src options input ctx w)) = [] ∧
      ∀ k tag p c compl,
        CallRule k tag p c compl ∈ calls (trust_of src options input ctx w) →
        c = VUndefined
  end.
Proof.
  invocation src options input ctx w.
  - destruct (run_other_calls _ _ _ _ _ _ _ _ _ Hrun) as [Hctx _].
    rewrite (context_calls_of_trace _ _ _ _ _ _ _ _ _ Hpre Hctx).
    assert (Hsame : ∀ k tag p' c' compl,
      CallRule k tag p' c' compl ∈ pre ++ CallCapture input (Returned p) :: evs →
      c' = c).
    { intros k tag p' c' compl Hin.
      apply (rule_call_of_trace _ _ _ _ _ _ _ _ _ _ _ _ _ _ Hpre) in Hin.
      by destruct (run_call_inv _ _ _ _ _ _ _ _ _ _ _ _ _ _ Hrun Hin) as (_ & -> & _). }
    inversion Hpre as [Hnone|f r w1' Hsome Hf]; subst;
      rewrite ?Hnone, ?Hsome, ?Hf; (split; [done|]);
      intros k tag p' c' compl Hin; by rewrite (Hsame _ _ _ _ _ Hin).
  - inversion Hpre as [Hnone|f r w1' Hsome Hf]; subst;
      rewrite ?Hnone, ?Hsome, ?Hf; (split; [done|]);
      intros k tag p' c' compl Hin; trace_member Hin; done.
  - inversion Hpre as [Hnone|f r w1' Hsome Hf]; subst;
      rewrite ?Hnone, ?Hsome, ?Hf; (split; [done|]);
      intros k tag p' c' compl Hin; trace_member Hin; done.
Qed.

Lemma rules_share_one_context_witness :
  context_calls (calls (trust_of lib_index context_aware (user "user")
                          (Some (VObject [("isSpecialMode", VBoolean true)])) [])) =
    [(VObject [("isSpecialMode", VBoolean true)],
      Returned (VObject [("isSpecialMode", VBoolean true)]))] ∧
  ∀ k tag p c compl,
    CallRule k tag p c compl ∈
      calls (trust_of lib_index context_aware (user "user")
               (Some (VObject [("isSpecialMode", VBoolean true)])) []) →
    Returned (VObject [("isSpecialMode", VBoolean true)]) = Returned c.
Proof.
  apply (rules_share_one_context lib_index context_aware (user "user")
           (Some (VObject [("isSpecialMode", VBoolean true)])) []).
Defined.

(** C6, as stated, fails: with an empty rule list [trust] still calls
    [capture], and rejects when [capture] throws. *)
Lemma empty_rule_list_can_reject :
  rules refusing_capture = [] ∧
  ∀ src,
    result (trust_of src refusing_capture (VString "raw") None []) =
      Rejected (VError "Error" "bad input") ∧
    result (trust_of src refusing_capture (VString "raw") None []) ≠ Fulfilled (plain ∅).
Proof. split; [done|]. by intros []. Qed.

(** C6, amended. With an empty rule list, [trust] fulfils with the
    empty mapping in every invocation in which neither [capture] nor the
    context function throws; it never stays pending, and the only
    errors it rejects with are those that [capture] or the context
    function threw, as they were thrown. *)
Theorem empty_rule_list_succeeds {World : Type} src
    (options : GatekeeperOptions World) input ctx (w : World) :
  rules options = [] →
  (normalised (calls (trust_of src options input ctx w)) →
   result (trust_of src options input ctx w) = Fulfilled (plain ∅)) ∧
  (∀ x,
     result (trust_of src options input ctx w) = Rejected x →
     ∃ raw,
       CallCapture raw (Threw x) ∈ calls (trust_of src options input ctx w) ∨
       CallContext raw (Threw x) ∈ calls (trust_of src options input ctx w)) ∧
  result (trust_of src options input ctx w) ≠ Pending.
Proof.
  invocation src options input ctx w; intros Hnil.
  - rewrite Hnil in Hrun. inversion Hrun; subst. by destruct src.
  - repeat split; [|by intros x [= <-]; exists input; left;
                     apply elem_of_app; right; apply list_elem_of_singleton|done].
    intros Hnorm. destruct (Hnorm input e) as [[] _].
    apply elem_of_app; right. by apply list_elem_of_singleton.
  - inversion Hpre; subst.
    repeat split; [|by intros x [= <-]; exists (optional ctx); right;
                     apply list_elem_of_singleton|done].
    intros Hnorm. destruct (Hnorm (optional ctx) e) as [_ []].
    by apply list_elem_of_singleton.
Qed.

Lemma empty_rule_list_succeeds_witness :
  result (trust_of part_000 no_rules VNull None []) = Fulfilled (plain ∅).
Proof.
  apply (empty_rule_list_succeeds part_000 no_rules VNull None []).
  - reflexivity.
  - by apply normalised_check.
Defined.

(** C4, as stated, fails: the evaluators are called only when [capture]
    and the context function have returned.  With [refused_input] the
    one rule always succeeds with [true], and [trust] rejects.  And an
    assignment to the property [__proto__] of an object literal does
    not create a property: with [proto_rule] the one rule is called
    and returns [true], and [trust] fulfils with an object that has no
    property of its own. *)
Lemma succeeding_rules_can_be_left_out :
  (NoDup (rules refused_input).*1 ∧
   (∀ tag rule, (tag, rule) ∈ rules refused_input →
      ∀ p c log, ∃ log', rule p c log = (Returns (VBoolean true), log')) ∧
   ∀ src,
     result (trust_of src refused_input (VString "raw") None []) =
       Rejected (VError "Error" "bad input") ∧
     calls (trust_of src refused_input (VString "raw") None []) =
       [CallCapture (VString "raw") (Threw (VError "Error" "bad input"))]) ∧
  (NoDup (rules proto_rule).*1 ∧
   (∀ tag rule, (tag, rule) ∈ rules proto_rule →
      ∀ p c log, ∃ log', rule p c log = (Returns (VBoolean true), log')) ∧
   ∀ src,
     trust_of src proto_rule VNull None [] =
       mkRun (Fulfilled (plain ∅)) ["__proto__"]
         [ CallCapture VNull (Returned VNull);
           CallRule 0 "__proto__" VNull VUndefined (Returns (VBoolean true)) ] ∧
     ∀ m, result (trust_of src proto_rule VNull None []) = Fulfilled m →
       own m !! "__proto__" = None ∧ size (own m) = 0).
Proof.
  split; (split; [|split]).
  - cbn. apply NoDup_singleton.
  - intros tag rule [= -> ->]%list_elem_of_singleton p c log. by eexists.
  - by intros [].
  - cbn. apply NoDup_singleton.
  - intros tag rule [= -> ->]%list_elem_of_singleton p c log. by eexists.
  - intros src. split; [by destruct src|].
    intros m Hm. assert (m = plain ∅) as -> by (destruct src; by injection Hm).
    done.
Qed.

(** C4, amended. In every invocation in which neither [capture] nor the
    context function throws, if every call of an evaluator produces a
    value other than [undefined], the names of the rules are pairwise
    distinct and none of them is [__proto__], then [trust] fulfils
    with a mapping whose keys are the names of the rules, one entry
    per rule, and every rule was called and its name is bound to the
    value its call produced. *)
Theorem every_rule_contributes_its_value {World : Type} src
    (options : GatekeeperOptions World) input ctx (w : World) :
  NoDup (rules options).*1 →
  "__proto__" ∉ (rules options).*1 →
  normalised (calls (trust_of src options input ctx w)) →
  (∀ k tag p c compl,
     CallRule k tag p c compl ∈ calls (trust_of src options input ctx w) →
     ∃ v, (compl = Returns v ∨ compl = Resolves v) ∧ v ≠ VUndefined) →
  ∃ m,
    result (trust_of src options input ctx w) = Fulfilled m ∧
    dom (own m) = list_to_set (rules options).*1 ∧
    size (own m) = length (rules options) ∧
    prototype m = Object_prototype ∧
    ∀ k tag rule,
      rules options !! k = Some (tag, rule) →
      ∃ p c compl v,
        CallRule k tag p c compl ∈ calls (trust_of src options input ctx w) ∧
        (compl = Returns v ∨ compl = Resolves v) ∧
        own m !! tag = Some v.
Proof.
  invocation src options input ctx w; intros Hnodup Hproto Hnorm Hall.
  - assert (Hall' : ∀ k tag p' c' compl, CallRule k tag p' c' compl ∈ evs →
      ∃ v, fulfils_with compl = Some v ∧ v ≠ VUndefined).
    { intros k tag p' c' compl Hin.
      destruct (Hall k tag p' c' compl) as (v & Hv%fulfils_with_iff & Hdef);
        [apply elem_of_app; right; by apply elem_of_cons; right|by exists v]. }
    assert (fin = Completed) as ->.
    { destruct (run_not_Completed _ _ _ _ _ _ _ _ _ Hrun)
        as [|(j & tag & compl & Hin & Hnone)]; [done|].
      destruct (Hall' _ _ _ _ _ Hin) as (v & Hv & _). congruence. }
    destruct (run_Completed _ _ _ _ _ _ _ _ Hrun) as [Hnames Hvals].
    assert (Hdefined : Forall (λ entry, entry.2 ≠ VUndefined) vs).
    { apply Forall_lookup. intros i [tag v] Hi.
      destruct (Hvals i tag v Hi) as (compl & Hin & Hv).
      destruct (Hall' _ _ _ _ _ Hin) as (v' & Hv' & Hdef). cbn. congruence. }
    destruct (foldl_store_entries src vs Hdefined)
      as (Hdom & Hsize & Hobj & Hlook); [by rewrite Hnames..|].
    exists (foldl (store src) (plain ∅) vs). split; [done|].
    rewrite Hdom, Hsize, Hnames.
    split; [done|]. split; [by rewrite <-(length_fmap fst), Hnames, length_fmap|].
    split; [done|].
    intros k tag rule Hk.
    assert (∃ v, vs !! k = Some (tag, v)) as [v Hv].
    { assert (vs.*1 !! k = Some tag) as Hk'.
      { rewrite Hnames, list_lookup_fmap. exact (f_equal (fmap fst) Hk). }
      rewrite list_lookup_fmap in Hk'.
      destruct (vs !! k) as [[tag' v]|] eqn:Hvs; [|done].
      injection Hk' as ->. by exists v. }
    destruct (Hvals k tag v Hv) as (compl & Hin & Hval).
    exists p, c, compl, v. split; [|split].
    + apply elem_of_app; right. by apply elem_of_cons; right.
    + by apply fulfils_with_iff.
    + apply Hlook. by eapply list_elem_of_lookup_2.
  - destruct (Hnorm input e) as [[] _].
    apply elem_of_app; right. by apply list_elem_of_singleton.
  - inversion Hpre; subst. destruct (Hnorm (optional ctx) e) as [_ []].
    by apply list_elem_of_singleton.
Qed.

Lemma every_rule_contributes_its_value_witness :
  ∃ m,
    result (trust_of lib_index pass_all_rules (user "admin") None []) = Fulfilled m ∧
    dom (own m) = list_to_set (rules pass_all_rules).*1 ∧
    size (own m) = length (rules pass_all_rules) ∧
    prototype m = Object_prototype ∧
    ∀ k tag rule,
      rules pass_all_rules !! k = Some (tag, rule) →
      ∃ p c compl v,
        CallRule k tag p c compl ∈
          calls (trust_of lib_index pass_all_rules (user "admin") None []) ∧
        (compl = Returns v ∨ compl = Resolves v) ∧
        own m !! tag = Some v.
Proof.
  apply (every_rule_contributes_its_value lib_index pass_all_rules (user "admin") None []).
  - apply (bool_decide_unpack _). reflexivity.
  - apply (bool_decide_unpack _). reflexivity.
  - by apply normalised_check.
  - by apply produced_value_check.
Defined.

(** C2 at [[['voidRule', () => {}], ['normalRule', () => true]]]: the
    [trust] of [src/lib/index.ts] assigns the awaited value whatever it
    is, so the mapping it returns has the property [voidRule], bound to
    [undefined]. *)
Theorem lib_index_binds_a_void_rule :
  ∃ m,
    Lib.trust void_rules VNull None [] =
      mkRun (Fulfilled m) ["voidRule"; "normalRule"]
        [ CallCapture VNull (Returned VNull);
          CallRule 0 "voidRule" VNull VUndefined (Returns VUndefined);
          CallRule 1 "normalRule" VNull VUndefined (Returns (VBoolean true)) ] ∧
    m = plain (<["normalRule" := VBoolean true]> (<["voidRule" := VUndefined]> ∅)) ∧
    own m !! "voidRule" = Some VUndefined ∧
    "voidRule" ∈ dom (own m).
Proof.
  eexists. split; [reflexivity|]. split; [done|]. split; [done|].
  apply elem_of_dom. by eexists.
Qed.

(** X10. More generally, in the mapping that the [trust] of
    [src/lib/index.ts] returns, the name of every rule is bound, whatever
    its evaluator produced, when no rule is named [__proto__]: the
    assignment to that name does not create a property. *)
Lemma lib_index_binds_every_rule {World : Type}
    (options : GatekeeperOptions World) input ctx (w : World) m :
  "__proto__" ∉ (rules options).*1 →
  result (Lib.trust options input ctx w) = Fulfilled m →
  dom (own m) = list_to_set (rules options).*1 ∧
  prototype m = Object_prototype.
Proof.
  change (Lib.trust options input ctx w)
    with (trust_of lib_index options input ctx w).
  invocation lib_index options input ctx w; [|done..].
  destruct fin; [|done..]. intros Hproto [= <-].
  destruct (run_Completed _ _ _ _ _ _ _ _ Hrun) as [Hnames _].
  rewrite <-Hnames in Hproto |- *.
  rewrite foldl_insert_list_to_map by done. cbn.
  split; [|done]. rewrite (right_id_L ∅ (∪)).
  rewrite dom_list_to_map_L, fmap_reverse.
  apply set_eq. intros tag.
  by rewrite !elem_of_list_to_set, elem_of_reverse.
Qed.

(** X9. The [trust] of [src/unnamed/part_000] tests [result !== undefined]
    before it assigns: no name is ever bound to [undefined] in the
    mapping it returns, and on the rules above [voidRule] is absent. *)
Lemma part_000_never_binds_undefined {World : Type}
    (options : GatekeeperOptions World) input ctx (w : World) m tag :
  result (Part000.trust options input ctx w) = Fulfilled m →
  own m !! tag ≠ Some VUndefined.
Proof.
  change (Part000.trust options input ctx w)
    with (trust_of part_000 options input ctx w).
  invocation part_000 options input ctx w; [|done..].
  destruct fin; [|done..]. intros [= <-].
  by apply foldl_store_part_000.
Qed.

Lemma part_000_skips_a_void_rule :
  ∃ m,
    result (Part000.trust void_rules VNull None []) = Fulfilled m ∧
    m = plain (<["normalRule" := VBoolean true]> ∅) ∧
    own m !! "voidRule" = None ∧
    "voidRule" ∉ dom (own m).
Proof.
  eexists. split; [reflexivity|]. split; [done|]. split; [done|].
  by apply not_elem_of_dom.
Qed.

(** C3 at the same rules: the two versions of [trust] make the same
    calls and both fulfil, with different mappings. *)
Theorem versions_differ_on_a_void_rule :
  ∃ m1 m2,
    result (Lib.trust void_rules VNull None []) = Fulfilled m1 ∧
    result (Part000.trust void_rules VNull None []) = Fulfilled m2 ∧
    own m1 !! "voidRule" = Some VUndefined ∧
    own m2 !! "voidRule" = None ∧
    calls (Lib.trust void_rules VNull None []) =
      calls (Part000.trust void_rules VNull None []) ∧
    result (Lib.trust void_rules VNull None []) ≠
      result (Part000.trust void_rules VNull None []).
Proof.
  do 2 eexists. split; [reflexivity|]. split; [reflexivity|].
  split; [done|]. split; [done|]. split; [done|].
  intros Heq.
  apply (f_equal (λ r, match r with
                       | Fulfilled m => own m !! "voidRule"
                       | _ => None
                       end)) in Heq.
  vm_compute in Heq. discriminate.
Qed.

(** X11. Apart from that, the two versions agree: they make the same calls
    and leave the same world, they reject with the same error, stay
    pending together and fulfil together; the mappings are equal when
    no evaluator produced [undefined], and in general they have the
    same prototype and differ only in names that [src/lib/index.ts]
    binds to [undefined]. *)
Lemma versions_agree_apart_from_void_rules {World : Type}
    (options : GatekeeperOptions World) input ctx (w : World) :
  calls (Lib.trust options input ctx w) = calls (Part000.trust options input ctx w) ∧
  after (Lib.trust options input ctx w) = after (Part000.trust options input ctx w) ∧
  (∀ e, result (Lib.trust options input ctx w) = Rejected e ↔
        result (Part000.trust options input ctx w) = Rejected e) ∧
  (result (Lib.trust options input ctx w) = Pending ↔
   result (Part000.trust options input ctx w) = Pending) ∧
  ((∀ k tag p c compl,
      CallRule k tag p c compl ∈ calls (Lib.trust options input ctx w) →
      compl ≠ Returns VUndefined ∧ compl ≠ Resolves VUndefined) →
   result (Lib.trust options input ctx w) = result (Part000.trust options input ctx w)) ∧
  (∀ m1,
     result (Lib.trust options input ctx w) = Fulfilled m1 →
     ∃ m2,
       result (Part000.trust options input ctx w) = Fulfilled m2 ∧
       prototype m2 = prototype m1 ∧
       dom (own m2) ⊆ dom (own m1) ∧
       ∀ tag v, own m1 !! tag = Some v → v ≠ VUndefined → own m2 !! tag = Some v).
Proof.
  change (Lib.trust options input ctx w)
    with (trust_of lib_index options input ctx w).
  change (Part000.trust options input ctx w)
    with (trust_of part_000 options input ctx w).
  invocation lib_index options input ctx w; [|by repeat split..].
  split; [done|]. split; [done|].
  destruct fin as [|tag e|]; cbn; [|by repeat split..].
  split; [done|]. split; [done|]. split.
  - intros Hall. f_equal. symmetry. apply foldl_store_defined.
    destruct (run_Completed _ _ _ _ _ _ _ _ Hrun) as [_ Hvals].
    apply Forall_lookup. intros i [tag v] Hi. cbn. intros ->.
    destruct (Hvals i tag VUndefined Hi) as (compl & Hin & Hv%fulfils_with_iff).
    destruct (Hall (0 + i) tag p c compl) as [H1 H2];
      [apply elem_of_app; right; by apply elem_of_cons; right|].
    by destruct Hv.
  - intros m1 [= <-]. eexists. split; [done|].
    apply foldl_store_versions; try done; cbn; by intros [? [=]].
Qed.

(** * Further properties of the loop and of [trust] *)

Section MoreRunFacts.
Context {World : Type}.
Implicit Types (rules : list (Rule World)) (w : World) (evs : list Event).

(** A pass is determined by the rules, the parameters, the context and
    the world it starts from. *)
Lemma rule_run_det p c k rules w evs1 vs1 fin1 w1 evs2 vs2 fin2 w2 :
  rule_run p c k rules w evs1 vs1 fin1 w1 →
  rule_run p c k rules w evs2 vs2 fin2 w2 →
  evs1 = evs2 ∧ vs1 = vs2 ∧ fin1 = fin2 ∧ w1 = w2.
Proof.
  intros Hrun. revert evs2 vs2 fin2 w2.
  induction Hrun as [k w|k tag0 rule rest w compl0 w1' v evs vs fin w2' Hcall Hv Hrun IH
                  |k tag0 rule rest w compl0 w1' e0 Hcall He
                  |k tag0 rule rest w w1' Hcall];
    intros evs2 vs2 fin2 w2 Hrun2; inversion Hrun2; subst; try done;
    repeat match goal with
    | H1 : ?f p c w = _, H2 : ?f p c w = _ |- _ => rewrite H1 in H2; simplify_eq
    end;
    try match goal with
    | H : fulfils_with ?x = Some _, H' : fails_with ?x = Some _ |- _ =>
        by destruct (fulfils_fails _ _ _ H H')
    end; try done.
  match goal with
  | H : rule_run _ _ _ _ _ _ _ _ _ |- _ =>
      destruct (IH _ _ _ _ H) as (-> & -> & -> & ->)
  end.
  done.
Qed.

Lemma context_phase_det (options : GatekeeperOptions World) raw w
    pre1 r1 w1 pre2 r2 w2 :
  context_phase options raw w pre1 r1 w1 →
  context_phase options raw w pre2 r2 w2 →
  pre1 = pre2 ∧ r1 = r2 ∧ w1 = w2.
Proof.
  intros H1 H2. inversion H1 as [Hn1|f1 r1' w1' Hs1 Hf1]; subst;
    inversion H2 as [Hn2|f2 r2' w2' Hs2 Hf2]; subst; try congruence; [done|].
  rewrite Hs1 in Hs2. injection Hs2 as <-. rewrite Hf1 in Hf2. by injection Hf2 as <- <-.
Qed.

(** A pass in which a call was not fulfilled is also the pass over the
    rules up to that call. *)
Lemma run_stops p c k rules w evs vs fin w' j tag p' c' compl :
  rule_run p c k rules w evs vs fin w' →
  CallRule j tag p' c' compl ∈ evs →
  fulfils_with compl = None →
  rule_run p c k (take (S (j - k)) rules) w evs vs fin w'.
Proof.
  induction 1 as [k w|k tag0 rule rest w compl0 w1 v evs vs fin w2 Hcall Hv Hrun IH
                  |k tag0 rule rest w compl0 w1 e0 Hcall He
                  |k tag0 rule rest w w1 Hcall]; intros Hin Hnone.
  - by apply elem_of_nil in Hin.
  - apply elem_of_cons in Hin as [[= -> -> -> -> ->]|Hin]; [congruence|].
    destruct (run_call_inv _ _ _ _ _ _ _ _ _ _ _ _ _ _ Hrun Hin) as (_ & _ & Hle & _).
    replace (j - k) with (S (j - S k)) by lia. cbn.
    eapply run_value; [done..|]. by apply IH.
  - apply list_elem_of_singleton in Hin as [= -> -> -> -> ->].
    rewrite Nat.sub_diag. cbn. rewrite take_0. by eapply run_error.
  - apply list_elem_of_singleton in Hin as [= -> -> -> -> ->].
    rewrite Nat.sub_diag. cbn. rewrite take_0. by eapply run_hung.
Qed.

(** A pass ends hung exactly when it made a call that never settles. *)
Lemma run_Hung p c k rules w evs vs fin w' :
  rule_run p c k rules w evs vs fin w' →
  fin = Hung ↔ ∃ j tag, CallRule j tag p c NeverSettles ∈ evs.
Proof.
  induction 1 as [k w|k tag0 rule rest w compl0 w1 v evs vs fin w2 Hcall Hv Hrun IH
                  |k tag0 rule rest w compl0 w1 e0 Hcall He
                  |k tag0 rule rest w w1 Hcall].
  - split; [done|]. by intros (j & tag & Hin%elem_of_nil).
  - rewrite IH. split.
    + intros (j & tag & Hin). exists j, tag. by apply elem_of_cons; right.
    + intros (j & tag & [[= _ _ <-]|Hin]%elem_of_cons); [done|by exists j, tag].
  - split; [done|].
    by intros (j & tag & [= _ _ <-]%list_elem_of_singleton).
  - split; [|done]. intros _. exists k, tag0. by apply list_elem_of_singleton.
Qed.

(** In a pass that completes, every rule was called once and every call
    was fulfilled; the value kept at position [i] is the one of the call
    at position [k + i]. *)
Lemma run_Completed_calls p c k rules w evs vs w' :
  rule_run p c k rules w evs vs Completed w' →
  length evs = length rules ∧
  ∀ j tag p' c' compl, CallRule j tag p' c' compl ∈ evs →
    ∃ v, fulfils_with compl = Some v ∧ vs !! (j - k) = Some (tag, v).
Proof.
  remember Completed as fin eqn:Hfin.
  induction 1 as [k w|k tag0 rule rest w compl0 w1 v evs vs fin w2 Hcall Hv Hrun IH
                  |k tag0 rule rest w compl0 w1 e0 Hcall He
                  |k tag0 rule rest w w1 Hcall]; try done.
  - split; [done|]. by intros j tag p' c' compl Hin%elem_of_nil.
  - destruct (IH Hfin) as [Hlen Hcalls]. split; [cbn; by rewrite Hlen|].
    intros j tag p' c' compl [[= -> -> -> -> ->]|Hin]%elem_of_cons.
    + exists v. by rewrite Nat.sub_diag.
    + destruct (run_call_inv _ _ _ _ _ _ _ _ _ _ _ _ _ _ Hrun Hin) as (_ & _ & Hle & _).
      destruct (Hcalls _ _ _ _ _ Hin) as (v' & Hv' & Hlook).
      exists v'. split; [done|]. by replace (j - k) with (S (j - S k)) by lia.
Qed.

End MoreRunFacts.

(** ** More on what the loop leaves in [returnOfRuleSet] *)

(** A binding of the result is a binding of the accumulator or the
    value kept for a rule of that name. *)
Lemma foldl_store_origin src (vs : list (string * Value)) (acc : Rules) tag v :
  own (foldl (store src) acc vs) !! tag = Some v →
  own acc !! tag = Some v ∨ (tag, v) ∈ vs.
Proof.
  revert acc. induction vs as [|[tag0 v0] vs IH]; intros acc Hlook; [by left|].
  cbn in Hlook. apply IH in Hlook as [Hlook|Hin]; [|right; by apply elem_of_cons; right].
  assert (Hins : own (assign tag0 v0 acc) !! tag = Some v →
    own acc !! tag = Some v ∨ (tag, v) ∈ (tag0, v0) :: vs).
  { intros [Hold|[-> ->]]%assign_origin; [by left|right]. by apply elem_of_cons; left. }
  destruct src; cbn in Hlook; [by apply Hins|].
  destruct (is_defined v0); [by apply Hins|by left].
Qed.

(** The values that are not stored leave a name as it was. *)
Lemma foldl_store_untouched src (vs : list (string * Value)) (acc : Rules) tag :
  (∀ v', (tag, v') ∈ vs → src = part_000 ∧ v' = VUndefined) →
  own (foldl (store src) acc vs) !! tag = own acc !! tag.
Proof.
  revert acc. induction vs as [|[tag0 v0] vs IH]; intros acc Hskip; [done|].
  cbn. rewrite IH; [|intros v' Hin; apply Hskip; by apply elem_of_cons; right].
  destruct (decide (tag0 = tag)) as [->|Hne].
  - destruct (Hskip v0) as [-> ->]; [by apply elem_of_cons; left|done].
  - destruct src; cbn; [by apply assign_lookup_ne|].
    destruct (is_defined v0); [by apply assign_lookup_ne|done].
Qed.

(** The last value stored under a name other than [__proto__] is the
    one the result binds. *)
Lemma foldl_store_last src (vs : list (string * Value)) (acc : Rules) i tag v :
  tag ≠ "__proto__" →
  vs !! i = Some (tag, v) →
  (src = part_000 → v ≠ VUndefined) →
  (∀ j v', i < j → vs !! j = Some (tag, v') → src = part_000 ∧ v' = VUndefined) →
  own (foldl (store src) acc vs) !! tag = Some v.
Proof.
  intros Htag. revert acc i.
  induction vs as [|[tag0 v0] vs IH]; intros acc i Hi Hv Hlater; [done|].
  destruct i as [|i]; cbn in Hi.
  - injection Hi as -> ->. cbn. rewrite foldl_store_untouched.
    + destruct src; cbn; [by apply assign_lookup_eq|].
      destruct v; cbn; try (by apply assign_lookup_eq). by destruct Hv.
    + intros v' [j Hj]%list_elem_of_lookup_1. apply (Hlater (S j)); [lia|done].
  - cbn. apply (IH _ i); [done..|].
    intros j v' Hlt Hj. apply (Hlater (S j)); [lia|done].
Qed.

(** * Further properties *)

Lemma bind_eq {World A B : Type} (m : Exec World A) (f : A → Exec World B) st :
  bind m f st =
    match m st with
    | (Normal a, st') => f a st'
    | (Abrupt e, st') => (Abrupt e, st')
    | (Diverges, st') => (Diverges, st')
    end.
Proof. done. Qed.

(** X1. The loop over a rule list in two parts is the loop over the
    first part followed, when it completes, by the loop over the second
    part from the position, the accumulator and the world reached;
    when the first part throws or hangs, the second part does not
    run. *)
Theorem for_of_app {World : Type} src k (l1 l2 : list (Rule World)) p c acc
    (st : State World) :
  for_of_of src k (l1 ++ l2) p c acc st =
    bind (for_of_of src k l1 p c acc) (for_of_of src (k + length l1) l2 p c) st.
Proof.
  revert k acc st. induction l1 as [|[tag rule] l1 IH]; intros k acc st.
  - cbn. rewrite Nat.add_0_r. by destruct src.
  - assert (Hstep : ∀ l, for_of_of src k ((tag, rule) :: l) p c acc st =
      bind (bind (set_currentRule (Some tag)) (λ _, await_rule k tag rule p c))
        (λ v, for_of_of src (S k) l p c (store src acc (tag, v))) st).
    { intros l. destruct src; cbn; unfold bind, set_currentRule, await_rule; cbn;
        destruct (rule p c (world st)) as [[] ?]; done. }
    change (((tag, rule) :: l1) ++ l2) with ((tag, rule) :: (l1 ++ l2)).
    rewrite Hstep.
    rewrite (bind_eq (for_of_of src k ((tag, rule) :: l1) p c acc)), Hstep.
    rewrite !(bind_eq (bind (set_currentRule (Some tag)) _)).
    destruct (bind (set_currentRule (Some tag)) (λ _, await_rule k tag rule p c) st)
      as [[v|e|] st']; [|done..].
    rewrite IH. cbn [length]. by rewrite Nat.add_succ_r.
Qed.

(** X2. When a call of an evaluator throws, is rejected or never
    settles, the rules declared after it play no part: the invocation
    is, in its result, the world it leaves and the calls it makes, the
    invocation of the pipeline whose rule list stops at that rule. *)
Theorem rules_after_a_failure_play_no_part {World : Type} src
    (options : GatekeeperOptions World) input ctx (w : World) k tag p c compl :
  CallRule k tag p c compl ∈ calls (trust_of src options input ctx w) →
  fulfils_with compl = None →
  trust_of src options input ctx w =
    trust_of src
      (mkOptions (capture options) (context options) (take (S k) (rules options)))
      input ctx w.
Proof.
  set (options' :=
    mkOptions (capture options) (context options) (take (S k) (rules options))).
  destruct (trust_cases options input ctx w) as (pre & r1 & w1 & Hpre & H).
  destruct (trust_cases options' input ctx w) as (pre' & r1' & w1' & Hpre' & H').
  assert (Hpre'' : context_phase options (optional ctx) w pre' r1' w1').
  { inversion Hpre'; subst; [by apply context_absent|by eapply context_called]. }
  destruct (context_phase_det _ _ _ _ _ _ _ _ _ Hpre Hpre'') as (<- & <- & <-).
  destruct r1 as [c0|e]; [|intros _ _; by rewrite H, H'].
  destruct H as (r2 & w2 & Hcap & H). destruct H' as (r2' & w2' & Hcap' & H').
  cbn in Hcap'. rewrite Hcap in Hcap'. injection Hcap' as <- <-.
  destruct r2 as [p0|e]; [|intros _ _; by rewrite H, H'].
  destruct H as (evs & vs & fin & w3 & Hrun & H).
  destruct H' as (evs' & vs' & fin' & w3' & Hrun' & H').
  rewrite H, H'. cbn [calls]. intros Hin Hnone.
  apply (rule_call_of_trace _ _ _ _ _ _ _ _ _ _ _ _ _ _ Hpre) in Hin.
  pose proof (run_stops _ _ _ _ _ _ _ _ _ _ _ _ _ _ Hrun Hin Hnone) as Hstop.
  rewrite Nat.sub_0_r in Hstop.
  by destruct (rule_run_det _ _ _ _ _ _ _ _ _ _ _ _ _ Hstop Hrun') as (<- & <- & <- & <-).
Qed.

Lemma rules_after_a_failure_play_no_part_witness :
  trust_of part_000 first_rule_fails (user "user") None [] =
    trust_of part_000
      (mkOptions (capture first_rule_fails) (context first_rule_fails)
         (take 1 (rules first_rule_fails)))
      (user "user") None [].
Proof.
  apply (rules_after_a_failure_play_no_part part_000 first_rule_fails (user "user")
           None [] 0 "checkUserId" (user "user") VUndefined
           (Throws (Error_new "Not admin"))).
  - vm_compute. repeat constructor.
  - reflexivity.
Defined.

(** X3. The calls of an invocation come in this order: the call of the
    context function, on the raw context, if one is configured; then
    one call of [capture], on the raw input; then the calls of the
    evaluators, each on the value that [capture] returned.  When the
    context function throws, nothing follows its call: [capture] is
    not called at all.  When it does not, [capture] is called exactly
    once. *)
Theorem capture_runs_once_after_context {World : Type} src
    (options : GatekeeperOptions World) input ctx (w : World) :
  ∃ pre post,
    calls (trust_of src options input ctx w) = pre ++ post ∧
    pre = match context options with
          | None => []
          | Some f => [CallContext (optional ctx) (f (optional ctx) w).1]
          end ∧
    (((∃ e, pre = [CallContext (optional ctx) (Threw e)]) ∧
      post = [] ∧
      capture_calls (calls (trust_of src options input ctx w)) = [] ∧
      ∀ raw res, CallCapture raw res ∉ calls (trust_of src options input ctx w)) ∨
     ((∀ e, pre ≠ [CallContext (optional ctx) (Threw e)]) ∧
      ∃ res evs,
        post = CallCapture input res :: evs ∧
        capture_calls (calls (trust_of src options input ctx w)) = [(input, res)] ∧
        ∀ ev, ev ∈ evs → ∃ k tag p c compl,
          ev = CallRule k tag p c compl ∧ res = Returned p)).
Proof.
  assert (Hctx : ∀ pre r1 w1,
    context_phase options (optional ctx) w pre r1 w1 →
    pre = match context options with
          | None => []
          | Some f => [CallContext (optional ctx) (f (optional ctx) w).1]
          end ∧
    capture_calls pre = [] ∧
    ∀ e, pre = [CallContext (optional ctx) (Threw e)] → r1 = Threw e).
  { intros pre r1 w1 [Hnone|f r w1' Hsome Hf].
    - rewrite Hnone. by repeat split.
    - rewrite Hsome, Hf. repeat split. by intros e [= ->]. }
  invocation src options input ctx w;
    destruct (Hctx _ _ _ Hpre) as (Hshape & Hnocap & Hthrew).
  - exists pre, (CallCapture input (Returned p) :: evs).
    split; [done|]. split; [done|]. right.
    split; [by intros e [= ]%Hthrew|].
    exists (Returned p), evs. split; [done|]. split.
    + destruct (run_other_calls _ _ _ _ _ _ _ _ _ Hrun) as [_ Hevs].
      unfold capture_calls in *. rewrite omap_app, Hnocap. cbn. by rewrite Hevs.
    + intros ev Hin.
      destruct (run_only_rules _ _ _ _ _ _ _ _ _ _ Hrun Hin) as (j & tag & compl & ->).
      by exists j, tag, p, c, compl.
  - exists pre, [CallCapture input (Threw e)].
    split; [done|]. split; [done|]. right.
    split; [by intros e' [= ]%Hthrew|].
    exists (Threw e), []. split; [done|]. split.
    + unfold capture_calls in *. by rewrite omap_app, Hnocap.
    + by intros ev Hin%elem_of_nil.
  - exists pre, []. rewrite app_nil_r. split; [done|]. split; [done|]. left.
    split; [exists e; by inversion Hpre|]. split; [done|]. split; [done|].
    intros raw res Hin. by apply (context_phase_calls _ _ _ _ _ _ _ Hpre) in Hin.
Qed.

(** X4. The promise that [trust] returns stays pending exactly when an
    evaluator it called never settles: with evaluators that settle,
    [trust] settles. *)
Theorem trust_hangs_only_with_an_evaluator {World : Type} src
    (options : GatekeeperOptions World) input ctx (w : World) :
  result (trust_of src options input ctx w) = Pending ↔
  ∃ k tag p c,
    CallRule k tag p c NeverSettles ∈ calls (trust_of src options input ctx w).
Proof.
  invocation src options input ctx w.
  - destruct (run_Hung _ _ _ _ _ _ _ _ _ Hrun) as [Hto Hfrom]. split.
    + intros Hres. destruct fin; try done.
      destruct (Hto eq_refl) as (j & tag & Hin). exists j, tag, p, c.
      apply elem_of_app; right. by apply elem_of_cons; right.
    + intros (j & tag & p' & c' & Hin).
      apply (rule_call_of_trace _ _ _ _ _ _ _ _ _ _ _ _ _ _ Hpre) in Hin.
      destruct (run_call_inv _ _ _ _ _ _ _ _ _ _ _ _ _ _ Hrun Hin) as (-> & -> & _).
      rewrite Hfrom; [done|by exists j, tag].
  - split; [done|]. intros (j & tag & p' & c' & Hin).
    by destruct (no_rule_call_before _ _ _ _ _ _ _ _ _ _ _ _ _ Hpre Hin).
  - split; [done|]. intros (j & tag & p' & c' & Hin).
    by destruct (no_rule_call_in_context _ _ _ _ _ _ _ _ _ _ _ Hpre Hin).
Qed.

(** X5. [trust] fulfils exactly when neither [capture] nor the context
    function throws and every call of an evaluator is fulfilled with a
    value; and then every rule of the list has been called: no mapping
    is returned before the last rule has run. *)
Theorem trust_fulfils_iff {World : Type} src
    (options : GatekeeperOptions World) input ctx (w : World) :
  ((∃ m, result (trust_of src options input ctx w) = Fulfilled m) ↔
   normalised (calls (trust_of src options input ctx w)) ∧
   ∀ k tag p c compl,
     CallRule k tag p c compl ∈ calls (trust_of src options input ctx w) →
     ∃ v, compl = Returns v ∨ compl = Resolves v) ∧
  ((∃ m, result (trust_of src options input ctx w) = Fulfilled m) →
   length (rule_calls (calls (trust_of src options input ctx w))) =
     length (rules options)).
Proof.
  invocation src options input ctx w.
  - rewrite (rule_calls_of_trace _ _ _ _ _ _ _ _ _ Hpre).
    rewrite (run_rule_calls_length _ _ _ _ _ _ _ _ _ Hrun).
    assert (Hnorm : normalised (pre ++ CallCapture input (Returned p) :: evs)).
    { intros raw e. split; intros Hin; trace_member Hin; try done.
      - by apply (context_phase_calls _ _ _ _ _ _ _ Hpre) in Hin.
      - by destruct (run_only_rules _ _ _ _ _ _ _ _ _ _ Hrun Hin) as (? & ? & ? & ?).
      - by apply (context_phase_calls _ _ _ _ _ _ _ Hpre) in Hin as [= _ ?].
      - by destruct (run_only_rules _ _ _ _ _ _ _ _ _ _ Hrun Hin) as (? & ? & ? & ?). }
    split; [split|].
    + intros [m Hres]. destruct fin; try done. split; [done|].
      intros k tag p' c' compl Hin.
      apply (rule_call_of_trace _ _ _ _ _ _ _ _ _ _ _ _ _ _ Hpre) in Hin.
      destruct (run_Completed_calls _ _ _ _ _ _ _ _ Hrun) as [_ Hcalls].
      destruct (Hcalls _ _ _ _ _ Hin) as (v & Hv%fulfils_with_iff & _). by exists v.
    + intros [_ Hall].
      destruct (run_not_Completed _ _ _ _ _ _ _ _ _ Hrun)
        as [->|(j & tag & compl & Hin & Hnone)]; [by eexists|].
      destruct (Hall j tag p c compl) as [v Hv%fulfils_with_iff];
        [apply elem_of_app; right; by apply elem_of_cons; right|congruence].
    + intros [m Hres]. destruct fin; try done.
      by destruct (run_Completed_calls _ _ _ _ _ _ _ _ Hrun) as [-> _].
  - split; [split|]; [by intros [m ?]| |by intros [m ?]].
    intros [Hnorm _]. destruct (Hnorm input e) as [[] _].
    apply elem_of_app; right. by apply list_elem_of_singleton.
  - split; [split|]; [by intros [m ?]| |by intros [m ?]].
    intros [Hnorm _]. destruct (Hnorm (optional ctx) e) as [_ []].
    inversion Hpre; subst. by apply list_elem_of_singleton.
Qed.

Lemma trust_hangs_only_with_an_evaluator_witness :
  result (trust_of lib_index hanging_rule VNull None []) = Pending ∧
  after (trust_of lib_index hanging_rule VNull None []) = ["first"; "stuck"].
Proof.
  split; [|reflexivity].
  apply (trust_hangs_only_with_an_evaluator lib_index hanging_rule VNull None []).
  exists 1, "stuck", VNull, VUndefined. vm_compute. repeat constructor.
Defined.

(** X6. Every entry of the mapping that [trust] returns comes from a
    rule: a name is bound to a value only if a rule declared under that
    name was called and its call produced that value. *)
Theorem entries_come_from_rules {World : Type} src
    (options : GatekeeperOptions World) input ctx (w : World) m tag v :
  result (trust_of src options input ctx w) = Fulfilled m →
  own m !! tag = Some v →
  ∃ k p c compl rule,
    CallRule k tag p c compl ∈ calls (trust_of src options input ctx w) ∧
    (compl = Returns v ∨ compl = Resolves v) ∧
    rules options !! k = Some (tag, rule).
Proof.
  invocation src options input ctx w; [|done..].
  destruct fin; [|done..]. intros [= <-] Hlook.
  apply foldl_store_origin in Hlook as [Hlook|Hin]; [done|].
  apply list_elem_of_lookup_1 in Hin as [i Hi].
  destruct (run_Completed _ _ _ _ _ _ _ _ Hrun) as [_ Hvals].
  destruct (Hvals i tag v Hi) as (compl & Hin & Hv%fulfils_with_iff).
  destruct (run_call_inv _ _ _ _ _ _ _ _ _ _ _ _ _ _ Hrun Hin)
    as (_ & _ & _ & rule & _ & _ & Hrule & _).
  rewrite Nat.sub_0_r in Hrule.
  exists (0 + i), p, c, compl, rule. split; [|done].
  apply elem_of_app; right. by apply elem_of_cons; right.
Qed.

Lemma entries_come_from_rules_witness :
  ∃ k p c compl rule,
    CallRule k "getRole" p c compl ∈
      calls (trust_of part_000 pass_all_rules (user "admin") None []) ∧
    (compl = Returns (VString "admin") ∨ compl = Resolves (VString "admin")) ∧
    rules pass_all_rules !! k = Some ("getRole", rule).
Proof.
  eapply (entries_come_from_rules part_000 pass_all_rules (user "admin") None []).
  - reflexivity.
  - reflexivity.
Defined.

(** The call that decides what a name is bound to: the last one under
    that name whose value is stored. *)
Lemma deciding_call {World : Type} src
    (options : GatekeeperOptions World) input ctx (w : World) m k tag p c compl v :
  tag ≠ "__proto__" →
  result (trust_of src options input ctx w) = Fulfilled m →
  CallRule k tag p c compl ∈ calls (trust_of src options input ctx w) →
  fulfils_with compl = Some v →
  (src = part_000 → v ≠ VUndefined) →
  (∀ j p' c' compl',
     CallRule j tag p' c' compl' ∈ calls (trust_of src options input ctx w) →
     k < j → src = part_000 ∧ fulfils_with compl' = Some VUndefined) →
  own m !! tag = Some v.
Proof.
  invocation src options input ctx w; [|done..].
  destruct fin; [|done..]. intros Htag [= <-] Hin Hv Hdef Hlater.
  apply (rule_call_of_trace _ _ _ _ _ _ _ _ _ _ _ _ _ _ Hpre) in Hin.
  destruct (run_Completed_calls _ _ _ _ _ _ _ _ Hrun) as [_ Hcalls].
  destruct (Hcalls _ _ _ _ _ Hin) as (v' & Hv' & Hk).
  rewrite Hv in Hv'. injection Hv' as <-. rewrite Nat.sub_0_r in Hk.
  apply (foldl_store_last src vs (plain ∅) k); [done..|].
  intros j v' Hlt Hj.
  destruct (run_Completed _ _ _ _ _ _ _ _ Hrun) as [_ Hvals].
  destruct (Hvals j tag v' Hj) as (compl' & Hin' & Hv'').
  assert (Hin'' : CallRule (0 + j) tag p0 c0 compl'
                    ∈ pre ++ CallCapture input (Returned p0) :: evs).
  { apply elem_of_app; right. by apply elem_of_cons; right. }
  destruct (Hlater _ _ _ _ Hin'') as [-> Hundef]; [cbn; lia|].
  split; [done|]. congruence.
Qed.

(** A test on every rule call of a trace. *)
Lemma rule_calls_check (tr : list Event) (test : nat → string → Completion → bool) :
  forallb (λ ev, match ev with
                 | CallRule j tag _ _ compl => test j tag compl
                 | _ => true
                 end) tr = true →
  ∀ j tag p c compl, CallRule j tag p c compl ∈ tr → test j tag compl = true.
Proof.
  intros Hall j tag p c compl Hin%list_elem_of_In.
  rewrite forallb_forall in Hall. by apply Hall in Hin.
Qed.

(** X7. In [src/lib/index.ts], when several rules share a name other
    than [__proto__], the last one wins: the name is bound to what the
    last call under that name produced, whatever earlier calls under
    it produced. *)
Theorem lib_index_last_rule_of_a_name_wins {World : Type}
    (options : GatekeeperOptions World) input ctx (w : World) m k tag p c compl v :
  tag ≠ "__proto__" →
  result (Lib.trust options input ctx w) = Fulfilled m →
  CallRule k tag p c compl ∈ calls (Lib.trust options input ctx w) →
  compl = Returns v ∨ compl = Resolves v →
  (∀ j p' c' compl',
     CallRule j tag p' c' compl' ∈ calls (Lib.trust options input ctx w) → j ≤ k) →
  own m !! tag = Some v.
Proof.
  intros Htag Hres Hin Hv%fulfils_with_iff Hlast.
  apply (deciding_call lib_index options input ctx w m k tag p c compl v);
    [done..|].
  intros j p' c' compl' Hin' Hlt. apply Hlast in Hin'. lia.
Qed.

Lemma lib_index_last_rule_of_a_name_wins_witness :
  own (plain (<["role" := VString "admin"]>
                (<["other" := VNull]> (<["role" := VString "user"]> ∅))))
    !! "role" = Some (VString "admin").
Proof.
  apply (lib_index_last_rule_of_a_name_wins same_name_twice VNull None [] _ 2 "role"
           VNull VUndefined (Returns (VString "admin")) (VString "admin")).
  - done.
  - reflexivity.
  - vm_compute. repeat constructor.
  - by left.
  - intros j p' c' compl' Hin.
    apply (rule_calls_check (calls (Lib.trust same_name_twice VNull None []))
             (λ j _ _, j <=? 2) eq_refl) in Hin.
    by apply Nat.leb_le.
Defined.

(** X8. In [src/unnamed/part_000], a name other than [__proto__] is
    bound to what the last call under that name that produced a value
    other than [undefined] produced: a later rule of the same name that
    returns nothing leaves the earlier value in place. *)
Theorem part_000_last_value_of_a_name_wins {World : Type}
    (options : GatekeeperOptions World) input ctx (w : World) m k tag p c compl v :
  tag ≠ "__proto__" →
  result (Part000.trust options input ctx w) = Fulfilled m →
  CallRule k tag p c compl ∈ calls (Part000.trust options input ctx w) →
  compl = Returns v ∨ compl = Resolves v →
  v ≠ VUndefined →
  (∀ j p' c' compl',
     CallRule j tag p' c' compl' ∈ calls (Part000.trust options input ctx w) →
     k < j →
     compl' = Returns VUndefined ∨ compl' = Resolves VUndefined) →
  own m !! tag = Some v.
Proof.
  intros Htag Hres Hin Hv%fulfils_with_iff Hdef Hlater.
  apply (deciding_call part_000 options input ctx w m k tag p c compl v);
    [done..|].
  intros j p' c' compl' Hin' Hlt. split; [done|].
  apply fulfils_with_iff. by eapply Hlater.
Qed.

Lemma part_000_last_value_of_a_name_wins_witness :
  own (plain (<["role" := VString "user"]> ∅)) !! "role" = Some (VString "user").
Proof.
  apply (part_000_last_value_of_a_name_wins void_after_value VNull None [] _ 0 "role"
           VNull VUndefined (Returns (VString "user")) (VString "user")).
  - done.
  - reflexivity.
  - vm_compute. repeat constructor.
  - by left.
  - done.
  - intros j p' c' compl' Hin Hlt.
    apply (rule_calls_check (calls (Part000.trust void_after_value VNull None []))
             (λ j _ compl, (j <=? 0) ||
                match compl with
                | Returns VUndefined => true
                | _ => false
                end) eq_refl) in Hin.
    apply orb_true_iff in Hin as [Hle%Nat.leb_le|Hvoid]; [lia|].
    left. by destruct compl' as [[]| | | |].
Defined.

Lemma part_000_never_binds_undefined_witness :
  own (plain (<["normalRule" := VBoolean true]> ∅)) !! "voidRule" ≠ Some VUndefined.
Proof.
  apply (part_000_never_binds_undefined void_rules VNull None [] _ "voidRule").
  reflexivity.
Defined.

Lemma lib_index_binds_every_rule_witness :
  dom (own (plain (<["normalRule" := VBoolean true]> (<["voidRule" := VUndefined]> ∅)))) =
    list_to_set (rules void_rules).*1 ∧
  prototype (plain (<["normalRule" := VBoolean true]> (<["voidRule" := VUndefined]> ∅))) =
    Object_prototype.
Proof.
  apply (lib_index_binds_every_rule void_rules VNull None []).
  - apply (bool_decide_unpack _). reflexivity.
  - reflexivity.
Defined.

Lemma versions_agree_apart_from_void_rules_witness :
  result (Lib.trust pass_all_rules (user "admin") None []) =
    result (Part000.trust pass_all_rules (user "admin") None []).
Proof.
  apply (versions_agree_apart_from_void_rules pass_all_rules (user "admin") None []).
  intros k tag p c compl Hin.
  destruct (produced_value_check
              (calls (Lib.trust pass_all_rules (user "admin") None []))
              eq_refl k tag p c compl Hin) as (v & [->| ->] & Hv);
    split; congruence.
Defined.

Lemma trust_fulfils_iff_witness :
  length (rule_calls (calls (trust_of part_000 pass_all_rules (user "admin") None []))) =
    length (rules pass_all_rules).
Proof.
  apply (trust_fulfils_iff part_000 pass_all_rules (user "admin") None []).
  eexists. reflexivity.
Defined.

(** ** What the [catch] block makes of a failure *)

(** X12. If the evaluator of rule [k] throws or returns a promise that
    is rejected, with [e], then no evaluator at a position after [k] is
    called, and [trust] rejects: with the
    [GatekeeperUnauthorizedError] of message ['UNAUTHORIZED'], of
    [rule] the name of rule [k] and of [reason] [e] itself when [e] is
    an [Error]; with the same of [reason] [new Error(String(e))] when
    [e] is not an [Error] and [String(e)] returns; and with the
    [TypeError] that [String(e)] throws otherwise. *)
Theorem failing_rule_stops_the_loop {World : Type} src
    (options : GatekeeperOptions World) input ctx (w : World) k tag p c compl e :
  CallRule k tag p c compl ∈ calls (trust_of src options input ctx w) →
  compl = Throws e ∨ compl = Rejects e →
  (∀ j tag' p' c' compl',
     CallRule j tag' p' c' compl' ∈ calls (trust_of src options input ctx w) →
     j ≤ k) ∧
  (∃ rule, rules options !! k = Some (tag, rule)) ∧
  (instanceof_Error e = true →
   result (trust_of src options input ctx w) =
     Rejected (VGatekeeperUnauthorizedError "UNAUTHORIZED" e tag)) ∧
  (∀ s, instanceof_Error e = false → String_ e = Some s →
   result (trust_of src options input ctx w) =
     Rejected (VGatekeeperUnauthorizedError "UNAUTHORIZED" (Error_new s) tag)) ∧
  (instanceof_Error e = false → String_ e = None →
   result (trust_of src options input ctx w) = Rejected no_primitive_value).
Proof.
  invocation src options input ctx w; intros Hin Hfail%fails_with_iff.
  - apply (rule_call_of_trace _ _ _ _ _ _ _ _ _ _ _ _ _ _ Hpre) in Hin.
    destruct (run_failure _ _ _ _ _ _ _ _ _ _ _ _ _ _ _ Hrun Hin Hfail) as [-> Hmax].
    destruct (run_call_inv _ _ _ _ _ _ _ _ _ _ _ _ _ _ Hrun Hin)
      as (_ & _ & _ & rule & _ & _ & Hlook & _).
    rewrite Nat.sub_0_r in Hlook.
    split; [|split; [by exists rule|]].
    + intros j tag' p' c' compl' Hin'.
      apply (rule_call_of_trace _ _ _ _ _ _ _ _ _ _ _ _ _ _ Hpre) in Hin'.
      by eapply Hmax.
    + cbn. unfold translation.
      repeat split; [intros ->|intros s -> ->|intros -> ->]; done.
  - by destruct (no_rule_call_before _ _ _ _ _ _ _ _ _ _ _ _ _ Hpre Hin).
  - by destruct (no_rule_call_in_context _ _ _ _ _ _ _ _ _ _ _ Hpre Hin).
Qed.

Lemma failing_rule_stops_the_loop_witness :
  (∀ j tag' p' c' compl',
     CallRule j tag' p' c' compl' ∈
       calls (trust_of part_000 string_thrown VNull None []) →
     j ≤ 1) ∧
  result (trust_of part_000 string_thrown VNull None []) =
    Rejected (VGatekeeperUnauthorizedError "UNAUTHORIZED" (VError "Error" "denied")
                "second").
Proof.
  assert (Hin : CallRule 1 "second" VNull VUndefined (Rejects (VString "denied"))
                  ∈ calls (trust_of part_000 string_thrown VNull None [])).
  { vm_compute. repeat constructor. }
  destruct (failing_rule_stops_the_loop part_000 string_thrown VNull None [] 1 "second"
              VNull VUndefined (Rejects (VString "denied")) (VString "denied")
              Hin (or_intror eq_refl))
    as (Hlast & _ & _ & Hwrapped & _).
  split; [exact Hlast|]. by apply Hwrapped.
Defined.

(** X13. Every error that [trust] raises from within the rule loop
    comes from a call of an evaluator that threw, or was rejected
    with, some [e], under the name [tag].  It is the
    [GatekeeperUnauthorizedError] of [rule] [tag] whose [reason] is [e]
    itself when [e] is an [Error], and [new Error(String(e))] when [e]
    is not an [Error] and [String(e)] returns; it is the [TypeError]
    that [String(e)] throws otherwise.  When it is a
    [GatekeeperUnauthorizedError], its [reason] is an [Error]. *)
Theorem loop_error_reason_is_an_Error {World : Type} src
    (options : GatekeeperOptions World) input ctx (w : World) x :
  result (trust_of src options input ctx w) = Rejected x →
  rule_called (calls (trust_of src options input ctx w)) →
  ∃ e tag,
    (∃ k p c compl,
       CallRule k tag p c compl ∈ calls (trust_of src options input ctx w) ∧
       (compl = Throws e ∨ compl = Rejects e)) ∧
    (instanceof_Error e = true ∧
       x = VGatekeeperUnauthorizedError "UNAUTHORIZED" e tag ∨
     instanceof_Error e = false ∧
       (∃ s, String_ e = Some s ∧
          x = VGatekeeperUnauthorizedError "UNAUTHORIZED" (Error_new s) tag) ∨
     instanceof_Error e = false ∧ String_ e = None ∧ x = no_primitive_value) ∧
    (instanceof_GatekeeperUnauthorizedError x = true →
     ∃ reason, reason_of x = Some reason ∧ instanceof_Error reason = true).
Proof.
  invocation src options input ctx w; intros Hres (k & tag & p' & c' & compl & Hin).
  - destruct fin as [|tag0 e|]; try done. injection Hres as <-.
    destruct (run_Failed _ _ _ _ _ _ _ _ _ _ _ Hrun eq_refl)
      as (_ & j & compl0 & Hin0 & Hfail%fails_with_iff).
    exists e, tag0. split.
    { exists j, p, c, compl0. split; [|done].
      apply elem_of_app; right. by apply elem_of_cons; right. }
    destruct (translation_cases e (Some tag0))
      as [[He Heq]|[(He & s & Hs & Heq)|(He & Hs & Heq)]]; rewrite Heq.
    + split; [by left|]. intros _. by exists e.
    + split; [right; left; split; [done|by exists s]|]. intros _. by eexists.
    + split; [by right; right|]. done.
  - by destruct (no_rule_call_before _ _ _ _ _ _ _ _ _ _ _ _ _ Hpre Hin).
  - by destruct (no_rule_call_in_context _ _ _ _ _ _ _ _ _ _ _ Hpre Hin).
Qed.

Lemma loop_error_reason_is_an_Error_witness :
  ∃ e tag,
    (∃ k p c compl,
       CallRule k tag p c compl ∈
         calls (trust_of lib_index string_thrown VNull (Some VNull) []) ∧
       (compl = Throws e ∨ compl = Rejects e)) ∧
    (instanceof_Error e = true ∧
       VGatekeeperUnauthorizedError "UNAUTHORIZED" (VError "Error" "denied") "second" =
         VGatekeeperUnauthorizedError "UNAUTHORIZED" e tag ∨
     instanceof_Error e = false ∧
       (∃ s, String_ e = Some s ∧
          VGatekeeperUnauthorizedError "UNAUTHORIZED" (VError "Error" "denied") "second" =
            VGatekeeperUnauthorizedError "UNAUTHORIZED" (Error_new s) tag) ∨
     instanceof_Error e = false ∧ String_ e = None ∧
       VGatekeeperUnauthorizedError "UNAUTHORIZED" (VError "Error" "denied") "second" =
         no_primitive_value) ∧
    (instanceof_GatekeeperUnauthorizedError
       (VGatekeeperUnauthorizedError "UNAUTHORIZED" (VError "Error" "denied") "second")
       = true →
     ∃ reason,
       reason_of (VGatekeeperUnauthorizedError "UNAUTHORIZED"
                    (VError "Error" "denied") "second") = Some reason ∧
       instanceof_Error reason = true).
Proof.
  apply (loop_error_reason_is_an_Error lib_index string_thrown VNull (Some VNull) []).
  - reflexivity.
  - exists 0, "first", VNull, VNull, (Resolves (VBoolean true)).
    vm_compute. repeat constructor.
Defined.
